(** * norns-web: the softcut sample engine and the tempo clock

    A shallow embedding of
    - [softcut-processor.js] (the AudioWorklet processor: six voices over two
      shared PCM buffers),
    - [lib/softcut.js] (the main-thread facade that posts commands), and
    - [lib/clock.js] (tempo clock, coroutine registry, sleep and sync),
    followed by the properties established for them.

    Numbers.  JavaScript numbers are IEEE doubles and the PCM buffers hold
    32-bit floats.  Throughout this development they are idealised as exact
    rationals ([Q]): rounding, NaN and infinities are not modelled.  Integer
    indices are [Z]. *)

From Stdlib Require Import ZArith QArith Qround Qabs Lqa Lia.
From stdpp Require Import base option list gmap.

(** ** JavaScript operators on numbers *)

Module Js.

(** [a < b], [a <= b], [a > b], [a >= b], [a !== b] on numbers. *)
Definition lt (a b : Q) : bool := negb (Qle_bool b a).
Definition le (a b : Q) : bool := Qle_bool a b.
Definition gt (a b : Q) : bool := lt b a.
Definition ge (a b : Q) : bool := le b a.
Definition neq (a b : Q) : bool := negb (Qeq_bool a b).

(** [Math.floor], [Math.ceil], [Math.abs], [Math.sign], [Math.min],
    [Math.max]. *)
Definition floor (a : Q) : Z := Qfloor a.
Definition ceil (a : Q) : Z := Qceiling a.
Definition abs (a : Q) : Q := Qabs a.
Definition sign (a : Q) : Q :=
  match (a ?= 0)%Q with
  | Lt => (-1)%Q
  | Eq => 0%Q
  | Gt => 1%Q
  end.
Definition min (a b : Q) : Q := if lt b a then b else a.
Definition max (a b : Q) : Q := if lt a b then b else a.

(** An integer used as a number. *)
Definition num (z : Z) : Q := inject_Z z.

(** The errors told apart by their [name]. *)
Inductive error :=
| TypeError
| AbortError
| OtherError.

End Js.

(** ** The two PCM buffers

    [new Float32Array(BUF_FRAMES)]: a zero-initialised array of fixed length
    [BUF_FRAMES] (16.8 million samples).  The array is represented sparsely
    by the finite map of the cells that have been written; a cell that was
    never written reads as zero.  As for every typed array, a store at an
    index outside [0, BUF_FRAMES) is ignored. *)

Module Pcm.

Definition SAMPLE_RATE : Z := 48000.
Definition BUF_DURATION : Z := 350.
Definition BUF_FRAMES : Z := SAMPLE_RATE * BUF_DURATION.

Abbreviation t := (gmap Z Q).

Definition in_range (i : Z) : bool := (0 <=? i)%Z && (i <? BUF_FRAMES)%Z.

(** [new Float32Array(BUF_FRAMES)] and [buf.fill(0)]. *)
Definition zeros : t := ∅.

(** [buf[i]] for an index in range (every read of the processor is guarded
    by [0 <= i < BUF_FRAMES]). *)
Definition get (b : t) (i : Z) : Q := default 0%Q (b !! i).

(** [buf[i] = x]. *)
Definition set (b : t) (i : Z) (x : Q) : t :=
  if in_range i then <[i := x]> b else b.

(** [for (let i = from; i < to; i++) buf[i] = 0], as [n] iterations
    starting at [from]. *)
Fixpoint zero_from (n : nat) (from : Z) (b : t) : t :=
  match n with
  | O => b
  | S n' => zero_from n' (from + 1) (set b from 0%Q)
  end.

(** [for (let i = 0; i < len; i++) buf[dst + i] = data[i]], by recursion on
    the part of [data] still to be copied. *)
Fixpoint copy_from (data : list Q) (dst : Z) (b : t) : t :=
  match data with
  | [] => b
  | x :: data' => copy_from data' (dst + 1) (set b dst x)
  end.

(** [buf.slice(start, end)]: negative arguments count from the end of the
    array and both are clamped to it. *)
Definition clamp_index (k : Z) : Z :=
  if (k <? 0)%Z then Z.max (BUF_FRAMES + k) 0 else Z.min k BUF_FRAMES.

Definition slice (b : t) (start stop : Z) : list Q :=
  let k := clamp_index start in
  let final := clamp_index stop in
  (fun i => get b (k + Z.of_nat i)) <$> seq 0 (Z.to_nat (final - k)).

End Pcm.

(** ** The AudioWorklet processor ([softcut-processor.js]) *)

Module Processor.

Definition NUM_VOICES : Z := 6.
Definition NUM_BUFFERS : Z := 2.

(** One element of [this.voices].  The flags [enabled], [playing], [loop]
    and [rec] hold the numbers 0 and 1 in the source and are only ever
    tested for truthiness. *)
Record voice := {
  enabled : bool;
  playing : bool;
  buffer : Z;
  rate : Q;
  level : Q;
  pan : Q;
  position : Q;
  phase : Q;
  loop : bool;
  loop_start : Q;
  loop_end : Q;
  fade_time : Q;
  level_slew_time : Q;
  level_target : Q;
  rec : bool;
  rec_level : Q;
  pre_level : Q;
  phase_quant : Q;
  phase_accum : Q
}.

(** Field assignments [v.f = x]. *)

Definition set_enabled (x : bool) (v : voice) : voice :=
  {| enabled := x; playing := playing v; buffer := buffer v; rate := rate v;
     level := level v; pan := pan v; position := position v;
     phase := phase v; loop := loop v; loop_start := loop_start v;
     loop_end := loop_end v; fade_time := fade_time v;
     level_slew_time := level_slew_time v; level_target := level_target v;
     rec := rec v; rec_level := rec_level v; pre_level := pre_level v;
     phase_quant := phase_quant v; phase_accum := phase_accum v |}.

Definition set_playing (x : bool) (v : voice) : voice :=
  {| enabled := enabled v; playing := x; buffer := buffer v; rate := rate v;
     level := level v; pan := pan v; position := position v;
     phase := phase v; loop := loop v; loop_start := loop_start v;
     loop_end := loop_end v; fade_time := fade_time v;
     level_slew_time := level_slew_time v; level_target := level_target v;
     rec := rec v; rec_level := rec_level v; pre_level := pre_level v;
     phase_quant := phase_quant v; phase_accum := phase_accum v |}.

Definition set_buffer (x : Z) (v : voice) : voice :=
  {| enabled := enabled v; playing := playing v; buffer := x; rate := rate v;
     level := level v; pan := pan v; position := position v;
     phase := phase v; loop := loop v; loop_start := loop_start v;
     loop_end := loop_end v; fade_time := fade_time v;
     level_slew_time := level_slew_time v; level_target := level_target v;
     rec := rec v; rec_level := rec_level v; pre_level := pre_level v;
     phase_quant := phase_quant v; phase_accum := phase_accum v |}.

Definition set_rate (x : Q) (v : voice) : voice :=
  {| enabled := enabled v; playing := playing v; buffer := buffer v;
     rate := x; level := level v; pan := pan v; position := position v;
     phase := phase v; loop := loop v; loop_start := loop_start v;
     loop_end := loop_end v; fade_time := fade_time v;
     level_slew_time := level_slew_time v; level_target := level_target v;
     rec := rec v; rec_level := rec_level v; pre_level := pre_level v;
     phase_quant := phase_quant v; phase_accum := phase_accum v |}.

Definition set_level (x : Q) (v : voice) : voice :=
  {| enabled := enabled v; playing := playing v; buffer := buffer v;
     rate := rate v; level := x; pan := pan v; position := position v;
     phase := phase v; loop := loop v; loop_start := loop_start v;
     loop_end := loop_end v; fade_time := fade_time v;
     level_slew_time := level_slew_time v; level_target := level_target v;
     rec := rec v; rec_level := rec_level v; pre_level := pre_level v;
     phase_quant := phase_quant v; phase_accum := phase_accum v |}.

Definition set_pan (x : Q) (v : voice) : voice :=
  {| enabled := enabled v; playing := playing v; buffer := buffer v;
     rate := rate v; level := level v; pan := x; position := position v;
     phase := phase v; loop := loop v; loop_start := loop_start v;
     loop_end := loop_end v; fade_time := fade_time v;
     level_slew_time := level_slew_time v; level_target := level_target v;
     rec := rec v; rec_level := rec_level v; pre_level := pre_level v;
     phase_quant := phase_quant v; phase_accum := phase_accum v |}.

Definition set_position (x : Q) (v : voice) : voice :=
  {| enabled := enabled v; playing := playing v; buffer := buffer v;
     rate := rate v; level := level v; pan := pan v; position := x;
     phase := phase v; loop := loop v; loop_start := loop_start v;
     loop_end := loop_end v; fade_time := fade_time v;
     level_slew_time := level_slew_time v; level_target := level_target v;
     rec := rec v; rec_level := rec_level v; pre_level := pre_level v;
     phase_quant := phase_quant v; phase_accum := phase_accum v |}.

Definition set_phase (x : Q) (v : voice) : voice :=
  {| enabled := enabled v; playing := playing v; buffer := buffer v;
     rate := rate v; level := level v; pan := pan v; position := position v;
     phase := x; loop := loop v; loop_start := loop_start v;
     loop_end := loop_end v; fade_time := fade_time v;
     level_slew_time := level_slew_time v; level_target := level_target v;
     rec := rec v; rec_level := rec_level v; pre_level := pre_level v;
     phase_quant := phase_quant v; phase_accum := phase_accum v |}.

Definition set_loop (x : bool) (v : voice) : voice :=
  {| enabled := enabled v; playing := playing v; buffer := buffer v;
     rate := rate v; level := level v; pan := pan v; position := position v;
     phase := phase v; loop := x; loop_start := loop_start v;
     loop_end := loop_end v; fade_time := fade_time v;
     level_slew_time := level_slew_time v; level_target := level_target v;
     rec := rec v; rec_level := rec_level v; pre_level := pre_level v;
     phase_quant := phase_quant v; phase_accum := phase_accum v |}.

Definition set_loop_start (x : Q) (v : voice) : voice :=
  {| enabled := enabled v; playing := playing v; buffer := buffer v;
     rate := rate v; level := level v; pan := pan v; position := position v;
     phase := phase v; loop := loop v; loop_start := x;
     loop_end := loop_end v; fade_time := fade_time v;
     level_slew_time := level_slew_time v; level_target := level_target v;
     rec := rec v; rec_level := rec_level v; pre_level := pre_level v;
     phase_quant := phase_quant v; phase_accum := phase_accum v |}.

Definition set_loop_end (x : Q) (v : voice) : voice :=
  {| enabled := enabled v; playing := playing v; buffer := buffer v;
     rate := rate v; level := level v; pan := pan v; position := position v;
     phase := phase v; loop := loop v; loop_start := loop_start v;
     loop_end := x; fade_time := fade_time v;
     level_slew_time := level_slew_time v; level_target := level_target v;
     rec := rec v; rec_level := rec_level v; pre_level := pre_level v;
     phase_quant := phase_quant v; phase_accum := phase_accum v |}.

Definition set_fade_time (x : Q) (v : voice) : voice :=
  {| enabled := enabled v; playing := playing v; buffer := buffer v;
     rate := rate v; level := level v; pan := pan v; position := position v;
     phase := phase v; loop := loop v; loop_start := loop_start v;
     loop_end := loop_end v; fade_time := x;
     level_slew_time := level_slew_time v; level_target := level_target v;
     rec := rec v; rec_level := rec_level v; pre_level := pre_level v;
     phase_quant := phase_quant v; phase_accum := phase_accum v |}.

Definition set_level_slew_time (x : Q) (v : voice) : voice :=
  {| enabled := enabled v; playing := playing v; buffer := buffer v;
     rate := rate v; level := level v; pan := pan v; position := position v;
     phase := phase v; loop := loop v; loop_start := loop_start v;
     loop_end := loop_end v; fade_time := fade_time v; level_slew_time := x;
     level_target := level_target v; rec := rec v; rec_level := rec_level v;
     pre_level := pre_level v; phase_quant := phase_quant v;
     phase_accum := phase_accum v |}.

Definition set_level_target (x : Q) (v : voice) : voice :=
  {| enabled := enabled v; playing := playing v; buffer := buffer v;
     rate := rate v; level := level v; pan := pan v; position := position v;
     phase := phase v; loop := loop v; loop_start := loop_start v;
     loop_end := loop_end v; fade_time := fade_time v;
     level_slew_time := level_slew_time v; level_target := x; rec := rec v;
     rec_level := rec_level v; pre_level := pre_level v;
     phase_quant := phase_quant v; phase_accum := phase_accum v |}.

Definition set_rec (x : bool) (v : voice) : voice :=
  {| enabled := enabled v; playing := playing v; buffer := buffer v;
     rate := rate v; level := level v; pan := pan v; position := position v;
     phase := phase v; loop := loop v; loop_start := loop_start v;
     loop_end := loop_end v; fade_time := fade_time v;
     level_slew_time := level_slew_time v; level_target := level_target v;
     rec := x; rec_level := rec_level v; pre_level := pre_level v;
     phase_quant := phase_quant v; phase_accum := phase_accum v |}.

Definition set_rec_level (x : Q) (v : voice) : voice :=
  {| enabled := enabled v; playing := playing v; buffer := buffer v;
     rate := rate v; level := level v; pan := pan v; position := position v;
     phase := phase v; loop := loop v; loop_start := loop_start v;
     loop_end := loop_end v; fade_time := fade_time v;
     level_slew_time := level_slew_time v; level_target := level_target v;
     rec := rec v; rec_level := x; pre_level := pre_level v;
     phase_quant := phase_quant v; phase_accum := phase_accum v |}.

Definition set_pre_level (x : Q) (v : voice) : voice :=
  {| enabled := enabled v; playing := playing v; buffer := buffer v;
     rate := rate v; level := level v; pan := pan v; position := position v;
     phase := phase v; loop := loop v; loop_start := loop_start v;
     loop_end := loop_end v; fade_time := fade_time v;
     level_slew_time := level_slew_time v; level_target := level_target v;
     rec := rec v; rec_level := rec_level v; pre_level := x;
     phase_quant := phase_quant v; phase_accum := phase_accum v |}.

Definition set_phase_quant (x : Q) (v : voice) : voice :=
  {| enabled := enabled v; playing := playing v; buffer := buffer v;
     rate := rate v; level := level v; pan := pan v; position := position v;
     phase := phase v; loop := loop v; loop_start := loop_start v;
     loop_end := loop_end v; fade_time := fade_time v;
     level_slew_time := level_slew_time v; level_target := level_target v;
     rec := rec v; rec_level := rec_level v; pre_level := pre_level v;
     phase_quant := x; phase_accum := phase_accum v |}.

Definition set_phase_accum (x : Q) (v : voice) : voice :=
  {| enabled := enabled v; playing := playing v; buffer := buffer v;
     rate := rate v; level := level v; pan := pan v; position := position v;
     phase := phase v; loop := loop v; loop_start := loop_start v;
     loop_end := loop_end v; fade_time := fade_time v;
     level_slew_time := level_slew_time v; level_target := level_target v;
     rec := rec v; rec_level := rec_level v; pre_level := pre_level v;
     phase_quant := phase_quant v; phase_accum := x |}.

(** The object pushed by the constructor for voice [i]. *)
Definition new_voice (i : Z) : voice :=
  {| enabled := false;
     playing := false;
     buffer := if (i <? 3)%Z then 0%Z else 1%Z;
     rate := 1;
     level := 1;
     pan := 0;
     position := 0;
     phase := 0;
     loop := false;
     loop_start := 0;
     loop_end := Js.num Pcm.BUF_DURATION;
     fade_time := 1 # 100;
     level_slew_time := 0;
     level_target := 1;
     rec := false;
     rec_level := 1;
     pre_level := 0;
     phase_quant := 0;
     phase_accum := 0 |}.

(** The assignments of [case "reset"] to voice [i], in source order. *)
Definition reset_voice (i : Z) (v : voice) : voice :=
  let v := set_enabled false v in
  let v := set_playing false v in
  let v := set_buffer (if (i <? 3)%Z then 0%Z else 1%Z) v in
  let v := set_rate 1 v in
  let v := set_level 1 v in
  let v := set_level_target 1 v in
  let v := set_pan 0 v in
  let v := set_position 0 v in
  let v := set_phase 0 v in
  let v := set_loop false v in
  let v := set_loop_start 0 v in
  let v := set_loop_end (Js.num Pcm.BUF_DURATION) v in
  let v := set_fade_time (1 # 100) v in
  let v := set_level_slew_time 0 v in
  let v := set_rec false v in
  let v := set_rec_level 1 v in
  let v := set_pre_level 0 v in
  let v := set_phase_quant 0 v in
  set_phase_accum 0 v.

(** Messages received on the port ([msg.cmd] with its payload). *)
Inductive msg :=
| Enable (voice : Z) (value : bool)
| Play (voice : Z) (value : bool)
| Buffer (voice : Z) (value : Z)
| Rate (voice : Z) (value : Q)
| Level (voice : Z) (value : Q)
| Pan (voice : Z) (value : Q)
| Position (voice : Z) (value : Q)
| Loop (voice : Z) (value : bool)
| LoopStart (voice : Z) (value : Q)
| LoopEnd (voice : Z) (value : Q)
| FadeTime (voice : Z) (value : Q)
| LevelSlewTime (voice : Z) (value : Q)
| Rec (voice : Z) (value : bool)
| RecLevel (voice : Z) (value : Q)
| PreLevel (voice : Z) (value : Q)
| PhaseQuant (voice : Z) (value : Q)
| PollStartPhase
| PollStopPhase
| BufferClear
| BufferClearChannel (ch : Z)
| BufferClearRegion (start dur : Q)
| BufferLoad (ch : Z) (start_dst : Q) (data : list Q)
| BufferRead (ch : Z) (start dur : Q)
| Reset.

(** Messages posted back to the main thread. *)
Inductive event :=
| PhaseEvent (voice : Z) (phase : Q)
| BufferData (ch : Z) (data : list Q).

(** The processor object: [this.buffers], [this.voices],
    [this.phasePolling], and the messages posted on [this.port] so far
    (oldest first). *)
Record processor := {
  buffers : list Pcm.t;
  voices : list voice;
  phasePolling : bool;
  posted : list event
}.

Definition set_buffers (x : list Pcm.t) (p : processor) : processor :=
  {| buffers := x; voices := voices p; phasePolling := phasePolling p;
     posted := posted p |}.
Definition set_voices (x : list voice) (p : processor) : processor :=
  {| buffers := buffers p; voices := x; phasePolling := phasePolling p;
     posted := posted p |}.
Definition set_phasePolling (x : bool) (p : processor) : processor :=
  {| buffers := buffers p; voices := voices p; phasePolling := x;
     posted := posted p |}.
Definition post (e : event) (p : processor) : processor :=
  {| buffers := buffers p; voices := voices p;
     phasePolling := phasePolling p; posted := posted p ++ [e] |}.

(** [arr[i]] for a JavaScript array and an integer [i]: [None] stands for
    [undefined]. *)
Definition at_index {A} (l : list A) (i : Z) : option A :=
  if (i <? 0)%Z then None else l !! Z.to_nat i.

(** The constructor. *)
Definition construct : processor :=
  {| buffers := [Pcm.zeros; Pcm.zeros];
     voices := new_voice <$> [0; 1; 2; 3; 4; 5]%Z;
     phasePolling := false;
     posted := [] |}.

(** [this.voices[i].f = x]-style updates.  A property access on
    [undefined] throws a TypeError: the result is then [None]. *)
Definition on_voice (i : Z) (f : voice -> voice) (p : processor)
  : option processor :=
  v ← at_index (voices p) i;
  Some (set_voices (<[Z.to_nat i := f v]> (voices p)) p).

Definition on_buffer (ch : Z) (f : Pcm.t -> Pcm.t) (p : processor)
  : option processor :=
  b ← at_index (buffers p) ch;
  Some (set_buffers (<[Z.to_nat ch := f b]> (buffers p)) p).

(** The loop [for (let i = 0; i < NUM_VOICES; i++)] of [case "reset"], as
    [n] iterations starting at [i]. *)
Fixpoint reset_from (n : nat) (i : Z) (p : processor) : option processor :=
  match n with
  | O => Some p
  | S n' => p ← on_voice i (reset_voice i) p; reset_from n' (i + 1)%Z p
  end.

Section GlobalScope.

Local Open Scope Q_scope.

(** [sampleRate], the global of the AudioWorkletGlobalScope. *)
Variable sampleRate : Q.

Definition handle_level (x : Q) (v : voice) : voice :=
  let v := set_level_target x v in
  if Js.le (level_slew_time v) 0 then set_level x v else v.

Definition clear_region (start dur : Q) (b : Pcm.t) : Pcm.t :=
  let startSamp := Js.floor (start * sampleRate) in
  let endSamp := Js.floor ((start + dur) * sampleRate) in
  Pcm.zero_from (Z.to_nat (Z.min endSamp Pcm.BUF_FRAMES - startSamp)%Z)
    startSamp b.

Definition load (start_dst : Q) (data : list Q) (b : Pcm.t) : Pcm.t :=
  let dst := Js.floor (start_dst * sampleRate) in
  let len := Z.min (Z.of_nat (length data)) (Pcm.BUF_FRAMES - dst)%Z in
  Pcm.copy_from (take (Z.to_nat len) data) dst b.

Definition _handleMessage (m : msg) (p : processor) : option processor :=
  match m with
  | Enable i x => on_voice i (set_enabled x) p
  | Play i x => on_voice i (set_playing x) p
  | Buffer i x => on_voice i (set_buffer x) p
  | Rate i x => on_voice i (set_rate x) p
  | Level i x => on_voice i (handle_level x) p
  | Pan i x => on_voice i (set_pan x) p
  | Position i x => on_voice i (set_phase (x * sampleRate)) p
  | Loop i x => on_voice i (set_loop x) p
  | LoopStart i x => on_voice i (set_loop_start x) p
  | LoopEnd i x => on_voice i (set_loop_end x) p
  | FadeTime i x => on_voice i (set_fade_time x) p
  | LevelSlewTime i x => on_voice i (set_level_slew_time x) p
  | Rec i x => on_voice i (set_rec x) p
  | RecLevel i x => on_voice i (set_rec_level x) p
  | PreLevel i x => on_voice i (set_pre_level x) p
  | PhaseQuant i x => on_voice i (set_phase_quant x) p
  | PollStartPhase => Some (set_phasePolling true p)
  | PollStopPhase => Some (set_phasePolling false p)
  | BufferClear =>
      p ← on_buffer 0 (fun _ => Pcm.zeros) p;
      on_buffer 1 (fun _ => Pcm.zeros) p
  | BufferClearChannel ch => on_buffer ch (fun _ => Pcm.zeros) p
  | BufferClearRegion start dur =>
      p ← on_buffer 0 (clear_region start dur) p;
      on_buffer 1 (clear_region start dur) p
  | BufferLoad ch start_dst data => on_buffer ch (load start_dst data) p
  | BufferRead ch start dur =>
      let readStart := Js.floor (start * sampleRate) in
      let readLen := Js.floor (dur * sampleRate) in
      b ← at_index (buffers p) ch;
      Some (post (BufferData ch (Pcm.slice b readStart (readStart + readLen)%Z)) p)
  | Reset =>
      p ← on_buffer 0 (fun _ => Pcm.zeros) p;
      p ← on_buffer 1 (fun _ => Pcm.zeros) p;
      reset_from (Z.to_nat NUM_VOICES) 0 p
  end.

(** *** The kernel: one frame of one voice

    The values computed once per voice before the frame loop. *)
Record locals := {
  loopStartSamp : Q;
  loopEndSamp : Q;
  loopLen : Q;
  fadeSamples : Q;
  slewRate : Q;
  gainL : Q;
  gainR : Q
}.

(** What the frame loop of one voice mutates: the voice object, the
    buffer [buf] it aliases ([None] when [this.buffers[voice.buffer]] is
    [undefined]), the two output channels and the port. *)
Record kernel := {
  k_voice : voice;
  k_buf : option Pcm.t;
  k_outL : list Q;
  k_outR : list Q;
  k_posted : list event
}.

(** Level slew. *)
Definition slew (slewRate : Q) (v : voice) : voice :=
  if Js.neq (level v) (level_target v) then
    let diff := level_target v - level v in
    if Js.lt (Js.abs diff) slewRate then set_level (level_target v) v
    else set_level (level v + Js.sign diff * slewRate) v
  else v.

(** Read with linear interpolation.  Indexing [buf] when it is
    [undefined] throws. *)
Definition read (buf : option Pcm.t) (phase : Q) : option Q :=
  let idx0 := Js.floor phase in
  let frac := phase - Js.num idx0 in
  let idx1 := (idx0 + 1)%Z in
  if (0 <=? idx0)%Z && (idx1 <? Pcm.BUF_FRAMES)%Z then
    b ← buf; Some (Pcm.get b idx0 * (1 - frac) + Pcm.get b idx1 * frac)
  else if (0 <=? idx0)%Z && (idx0 <? Pcm.BUF_FRAMES)%Z then
    b ← buf; Some (Pcm.get b idx0)
  else Some 0.

(** Crossfade at loop boundaries. *)
Definition fade (c : locals) (v : voice) (phase : Q) : Q :=
  if loop v && Js.gt (fadeSamples c) 0 && Js.gt (loopLen c) 0 then
    let distFromStart := phase - loopStartSamp c in
    let distFromEnd := loopEndSamp c - phase in
    if Js.ge distFromStart 0 && Js.lt distFromStart (fadeSamples c) then
      distFromStart / fadeSamples c
    else if Js.ge distFromEnd 0 && Js.lt distFromEnd (fadeSamples c) then
      distFromEnd / fadeSamples c
    else 1
  else 1.

(** [out[i] += x]. *)
Definition add_at (i : nat) (x : Q) (out : list Q) : list Q :=
  <[i := default 0 (out !! i) + x]> out.

(** [inMono ? inMono[i] : 0].  [inMono] is [None] when there is no input
    channel; an input channel has one sample per frame of the block. *)
Definition input_at (inMono : option (list Q)) (i : nat) : Q :=
  match inMono with
  | Some chan => default 0 (chan !! i)
  | None => 0
  end.

(** Recording. *)
Definition record (inMono : option (list Q)) (i : nat) (v : voice)
    (phase : Q) (buf : option Pcm.t) : option (option Pcm.t) :=
  if rec v then
    let recIdx := Js.floor phase in
    if (0 <=? recIdx)%Z && (recIdx <? Pcm.BUF_FRAMES)%Z then
      let inputSample := input_at inMono i in
      b ← buf;
      Some (Some (Pcm.set b recIdx
                    (rec_level v * inputSample + pre_level v * Pcm.get b recIdx)))
    else Some buf
  else Some buf.

(** Loop / boundary handling, after the phase has advanced. *)
Definition boundary (c : locals) (v : voice) : voice :=
  if loop v && Js.gt (loopLen c) 0 then
    if Js.gt (rate v) 0 && Js.ge (phase v) (loopEndSamp c) then
      set_phase (loopStartSamp c + (phase v - loopEndSamp c)) v
    else if Js.lt (rate v) 0 && Js.lt (phase v) (loopStartSamp c) then
      set_phase (loopEndSamp c - (loopStartSamp c - phase v)) v
    else v
  else
    if Js.ge (phase v) (Js.num Pcm.BUF_FRAMES) || Js.lt (phase v) 0 then
      set_playing false v
    else v.

(** Phase reporting accumulator: the voice afterwards and the messages
    posted. *)
Definition report (polling : bool) (vi : Z) (v : voice)
  : voice * list event :=
  if polling && Js.gt (phase_quant v) 0 then
    let v := set_phase_accum (phase_accum v + Js.abs (rate v)) v in
    let quantSamples := phase_quant v * sampleRate in
    if Js.ge (phase_accum v) quantSamples then
      (set_phase_accum (phase_accum v - quantSamples) v,
       [PhaseEvent vi (phase v / sampleRate)])
    else (v, [])
  else (v, []).

(** The body of [for (let i = 0; i < blockSize; i++)]. *)
Definition frame (polling : bool) (vi : Z) (c : locals)
    (inMono : option (list Q)) (i : nat) (k : kernel) : option kernel :=
  let voice := slew (slewRate c) (k_voice k) in
  if negb (playing voice) then
    Some {| k_voice := voice; k_buf := k_buf k; k_outL := k_outL k;
            k_outR := k_outR k; k_posted := k_posted k |}
  else
    let phase := phase voice in
    sample ← read (k_buf k) phase;
    let fadeGain := fade c voice phase in
    let out := sample * level voice * fadeGain in
    let outL := add_at i (out * gainL c) (k_outL k) in
    let outR := add_at i (out * gainR c) (k_outR k) in
    buf ← record inMono i voice phase (k_buf k);
    let voice := set_phase (Processor.phase voice + rate voice) voice in
    let voice := boundary c voice in
    let '(voice, evs) := report polling vi voice in
    Some {| k_voice := voice; k_buf := buf; k_outL := outL;
            k_outR := outR; k_posted := k_posted k ++ evs |}.

(** The frame loop, as [n] iterations starting at frame [i]. *)
Fixpoint frames (polling : bool) (vi : Z) (c : locals)
    (inMono : option (list Q)) (n : nat) (i : nat) (k : kernel)
  : option kernel :=
  match n with
  | O => Some k
  | S n' =>
      k ← frame polling vi c inMono i k;
      frames polling vi c inMono n' (S i) k
  end.

(** *** [process] *)

Section Math.

Variables Math_cos Math_sin : Q -> Q.
Variable Math_PI : Q.

Definition locals_of (v : voice) : locals :=
  let loopStartSamp := loop_start v * sampleRate in
  let loopEndSamp := loop_end v * sampleRate in
  let panNorm := (pan v + 1) * (1 # 2) in
  {| loopStartSamp := loopStartSamp;
     loopEndSamp := loopEndSamp;
     loopLen := loopEndSamp - loopStartSamp;
     fadeSamples := fade_time v * sampleRate;
     slewRate :=
       if Js.gt (level_slew_time v) 0
       then 1 / (level_slew_time v * sampleRate) else 1;
     gainL := Math_cos (panNorm * Math_PI * (1 # 2));
     gainR := Math_sin (panNorm * Math_PI * (1 # 2)) |}.

(** The output block and the processor while [process] runs. *)
Record run := {
  r_proc : processor;
  r_outL : list Q;
  r_outR : list Q
}.

(** The body of [for (let v = 0; v < NUM_VOICES; v++)]. *)
Definition process_voice (inMono : option (list Q)) (blockSize : nat)
    (vi : Z) (r : run) : option run :=
  let p := r_proc r in
  voice ← at_index (voices p) vi;
  if negb (enabled voice) then Some r
  else
    let buf := at_index (buffers p) (buffer voice) in
    let c := locals_of voice in
    k ← frames (phasePolling p) vi c inMono blockSize 0
          {| k_voice := voice; k_buf := buf; k_outL := r_outL r;
             k_outR := r_outR r; k_posted := posted p |};
    let bufs :=
      match k_buf k with
      | Some b => <[Z.to_nat (buffer voice) := b]> (buffers p)
      | None => buffers p
      end in
    Some {| r_proc :=
              {| buffers := bufs;
                 voices := <[Z.to_nat vi := k_voice k]> (voices p);
                 phasePolling := phasePolling p;
                 posted := k_posted k |};
            r_outL := k_outL k;
            r_outR := k_outR k |}.

(** The voice loop, as [n] iterations starting at voice [vi]. *)
Fixpoint voices_from (inMono : option (list Q)) (blockSize : nat)
    (n : nat) (vi : Z) (r : run) : option run :=
  match n with
  | O => Some r
  | S n' =>
      r ← process_voice inMono blockSize vi r;
      voices_from inMono blockSize n' (vi + 1)%Z r
  end.

(** [process(inputs, outputs)] for an output block of [blockSize]
    frames: both channels are cleared, then every voice runs. *)
Definition process (inMono : option (list Q)) (blockSize : nat)
    (p : processor) : option run :=
  voices_from inMono blockSize (Z.to_nat NUM_VOICES) 0
    {| r_proc := p;
       r_outL := replicate blockSize 0;
       r_outR := replicate blockSize 0 |}.

End Math.

End GlobalScope.

End Processor.

(** ** The main-thread facade ([lib/softcut.js]) *)

Module Softcut.

Import Processor.

(** How a call ends: it returns, or it throws. *)
Inductive completion :=
| Returns
| Throws (e : Js.error).

(** [workletNode]: [None] is [null] (before [init]); otherwise the messages
    posted on [workletNode.port] so far, oldest first. *)
Record facade := {
  workletNode : option (list msg)
}.

Definition _send (m : msg) (f : facade) : facade :=
  match workletNode f with
  | Some port => {| workletNode := Some (port ++ [m]) |}
  | None => f
  end.

(** [_sendVoice(cmd, voice, value)] posts [{cmd, voice: voice - 1, value}]. *)
Definition _sendVoice {A} (cmd : Z -> A -> msg) (voice : Z) (value : A)
    (f : facade) : facade :=
  _send (cmd (voice - 1)%Z value) f.

(** The voice-targeted methods of the [softcut] object.  The boolean
    argument [state] is the truthiness tested by [state ? 1 : 0]. *)
Definition enable (voice : Z) (state : bool) := _sendVoice Enable voice state.
Definition buffer (voice : Z) (buf : Z) := _sendVoice Buffer voice (buf - 1)%Z.
Definition play (voice : Z) (state : bool) := _sendVoice Play voice state.
Definition rate (voice : Z) (rate : Q) := _sendVoice Rate voice rate.
Definition level (voice : Z) (amp : Q) := _sendVoice Level voice amp.
Definition pan (voice : Z) (pos : Q) := _sendVoice Pan voice pos.
Definition position (voice : Z) (pos : Q) := _sendVoice Position voice pos.
Definition loop (voice : Z) (state : bool) := _sendVoice Loop voice state.
Definition loop_start (voice : Z) (pos : Q) := _sendVoice LoopStart voice pos.
Definition loop_end (voice : Z) (pos : Q) := _sendVoice LoopEnd voice pos.
Definition fade_time (voice : Z) (time : Q) := _sendVoice FadeTime voice time.
Definition level_slew_time (voice : Z) (time : Q) :=
  _sendVoice LevelSlewTime voice time.
Definition rec (voice : Z) (state : bool) := _sendVoice Rec voice state.
Definition rec_level (voice : Z) (amp : Q) := _sendVoice RecLevel voice amp.
Definition pre_level (voice : Z) (amp : Q) := _sendVoice PreLevel voice amp.
Definition phase_quant (voice : Z) (quantum : Q) :=
  _sendVoice PhaseQuant voice quantum.

(** A voice-targeted call with its arguments. *)
Inductive call :=
| CallEnable (voice : Z) (state : bool)
| CallBuffer (voice : Z) (buf : Z)
| CallPlay (voice : Z) (state : bool)
| CallRate (voice : Z) (rate : Q)
| CallLevel (voice : Z) (amp : Q)
| CallPan (voice : Z) (pos : Q)
| CallPosition (voice : Z) (pos : Q)
| CallLoop (voice : Z) (state : bool)
| CallLoopStart (voice : Z) (pos : Q)
| CallLoopEnd (voice : Z) (pos : Q)
| CallFadeTime (voice : Z) (time : Q)
| CallLevelSlewTime (voice : Z) (time : Q)
| CallRec (voice : Z) (state : bool)
| CallRecLevel (voice : Z) (amp : Q)
| CallPreLevel (voice : Z) (amp : Q)
| CallPhaseQuant (voice : Z) (quantum : Q).

Definition call_voice (c : call) : Z :=
  match c with
  | CallEnable v _ | CallBuffer v _ | CallPlay v _ | CallRate v _
  | CallLevel v _ | CallPan v _ | CallPosition v _ | CallLoop v _
  | CallLoopStart v _ | CallLoopEnd v _ | CallFadeTime v _
  | CallLevelSlewTime v _ | CallRec v _ | CallRecLevel v _
  | CallPreLevel v _ | CallPhaseQuant v _ => v
  end.

(** The message a call composes. *)
Definition call_msg (c : call) : msg :=
  match c with
  | CallEnable v x => Enable (v - 1) x
  | CallBuffer v x => Buffer (v - 1) (x - 1)
  | CallPlay v x => Play (v - 1) x
  | CallRate v x => Rate (v - 1) x
  | CallLevel v x => Level (v - 1) x
  | CallPan v x => Pan (v - 1) x
  | CallPosition v x => Position (v - 1) x
  | CallLoop v x => Loop (v - 1) x
  | CallLoopStart v x => LoopStart (v - 1) x
  | CallLoopEnd v x => LoopEnd (v - 1) x
  | CallFadeTime v x => FadeTime (v - 1) x
  | CallLevelSlewTime v x => LevelSlewTime (v - 1) x
  | CallRec v x => Rec (v - 1) x
  | CallRecLevel v x => RecLevel (v - 1) x
  | CallPreLevel v x => PreLevel (v - 1) x
  | CallPhaseQuant v x => PhaseQuant (v - 1) x
  end%Z.

(** Running a call: none of the methods has a [throw] or a range test, so
    each returns after its single [_sendVoice]. *)
Definition invoke (c : call) (f : facade) : completion * facade :=
  (Returns,
   match c with
   | CallEnable v x => enable v x f
   | CallBuffer v x => buffer v x f
   | CallPlay v x => play v x f
   | CallRate v x => rate v x f
   | CallLevel v x => level v x f
   | CallPan v x => pan v x f
   | CallPosition v x => position v x f
   | CallLoop v x => loop v x f
   | CallLoopStart v x => loop_start v x f
   | CallLoopEnd v x => loop_end v x f
   | CallFadeTime v x => fade_time v x f
   | CallLevelSlewTime v x => level_slew_time v x f
   | CallRec v x => rec v x f
   | CallRecLevel v x => rec_level v x f
   | CallPreLevel v x => pre_level v x f
   | CallPhaseQuant v x => phase_quant v x f
   end).

(** The commands enqueued so far ([[]] while there is no node). *)
Definition enqueued (f : facade) : list msg := default [] (workletNode f).

End Softcut.

(** ** The tempo clock ([lib/clock.js])

    The module state, the coroutine registry and the promises created by
    [_accurateSleep].  Time is read from [performance.now()]; every operation
    that reads it takes the reading [now] (in seconds) as an argument.  The
    transport hooks and the MIDI clock output are left out. *)

Module Clock.

Local Open Scope Q_scope.

(** An entry of [_coroutines].  The AbortController made by [run] is named
    by the id of that run, and so is its signal. *)
Record coro := { abort : Z }.

(** The promise returned by [_accurateSleep]. *)
Inductive promise :=
| Waiting (targetTime : Q)
| Resolved
| Rejected (e : Js.error).

(** A call of [clock.sleep] or [clock.sync] that is suspended at its
    [await]: the signal it captured in [const signal = _currentSignal] and
    the promise it awaits.  [owner] is not program state: it records the id
    of the task whose code made the call. *)
Record sleeper := {
  owner : Z;
  signal : option Z;
  awaited : promise
}.

Record clock := {
  _tempo : Q;
  _running : bool;
  _refTime : Q;
  _refBeats : Q;
  _nextId : Z;
  _coroutines : gmap Z coro;
  _currentSignal : option Z;
  aborted : gset Z;
  sleepers : list sleeper;
  console : list Z
}.

Definition set_nextId (x : Z) (s : clock) : clock :=
  {| _tempo := _tempo s; _running := _running s; _refTime := _refTime s;
     _refBeats := _refBeats s; _nextId := x; _coroutines := _coroutines s;
     _currentSignal := _currentSignal s; aborted := aborted s;
     sleepers := sleepers s; console := console s |}.
Definition set_coroutines (x : gmap Z coro) (s : clock) : clock :=
  {| _tempo := _tempo s; _running := _running s; _refTime := _refTime s;
     _refBeats := _refBeats s; _nextId := _nextId s; _coroutines := x;
     _currentSignal := _currentSignal s; aborted := aborted s;
     sleepers := sleepers s; console := console s |}.
Definition set_currentSignal (x : option Z) (s : clock) : clock :=
  {| _tempo := _tempo s; _running := _running s; _refTime := _refTime s;
     _refBeats := _refBeats s; _nextId := _nextId s;
     _coroutines := _coroutines s; _currentSignal := x;
     aborted := aborted s; sleepers := sleepers s; console := console s |}.
Definition set_aborted (x : gset Z) (s : clock) : clock :=
  {| _tempo := _tempo s; _running := _running s; _refTime := _refTime s;
     _refBeats := _refBeats s; _nextId := _nextId s;
     _coroutines := _coroutines s; _currentSignal := _currentSignal s;
     aborted := x; sleepers := sleepers s; console := console s |}.
Definition set_sleepers (x : list sleeper) (s : clock) : clock :=
  {| _tempo := _tempo s; _running := _running s; _refTime := _refTime s;
     _refBeats := _refBeats s; _nextId := _nextId s;
     _coroutines := _coroutines s; _currentSignal := _currentSignal s;
     aborted := aborted s; sleepers := x; console := console s |}.
Definition set_console (x : list Z) (s : clock) : clock :=
  {| _tempo := _tempo s; _running := _running s; _refTime := _refTime s;
     _refBeats := _refBeats s; _nextId := _nextId s;
     _coroutines := _coroutines s; _currentSignal := _currentSignal s;
     aborted := aborted s; sleepers := sleepers s; console := x |}.

(** The state when the module is loaded at time [now]. *)
Definition initial (now : Q) : clock :=
  {| _tempo := 120; _running := false; _refTime := now; _refBeats := 0;
     _nextId := 1; _coroutines := ∅; _currentSignal := None;
     aborted := ∅; sleepers := []; console := [] |}.

Definition _getBeats (now : Q) (s : clock) : Q :=
  if negb (_running s) then _refBeats s
  else (now - _refTime s) * (_tempo s / 60) + _refBeats s.

(** [signal && signal.aborted] *)
Definition is_aborted (sig : option Z) (s : clock) : bool :=
  match sig with
  | Some a => bool_decide (a ∈ aborted s)
  | None => false
  end.

(** The four ways through [_accurateSleep]. *)
Inductive sleep_path :=
| AlreadyAborted
| NoWait
| Spin (targetTime : Q)
| Timer (targetTime : Q) (coarseMs : Q).

Definition _accurateSleep (now seconds : Q) (sig : option Z) (s : clock)
  : sleep_path :=
  if is_aborted sig s then AlreadyAborted
  else if Js.le seconds 0 then NoWait
  else
    let targetTime := now + seconds in
    if Js.le seconds (4 # 1000) then Spin targetTime
    else Timer targetTime (Js.max 0 ((seconds - (3 # 1000)) * 1000)).

(** The promise [_accurateSleep] hands back: rejected, already resolved
    (at once, or after spinning until [targetTime]), or waiting for its
    timer, in which case an abort listener is attached to the signal. *)
Definition promise_of (path : sleep_path) : promise :=
  match path with
  | AlreadyAborted => Rejected Js.AbortError
  | NoWait => Resolved
  | Spin _ => Resolved
  | Timer targetTime _ => Waiting targetTime
  end.


(** [await _accurateSleep(seconds, signal)] *)
Definition await_sleep (task : Z) (now seconds : Q) (sig : option Z)
    (s : clock) : clock :=
  set_sleepers
    (sleepers s ++
       [{| owner := task; signal := sig;
           awaited := promise_of (_accurateSleep now seconds sig s) |}]) s.

(** [clock.sleep(seconds)] up to its [await], called by the code of
    [task]. *)
Definition sleep (task : Z) (now seconds : Q) (s : clock) : clock :=
  let signal := _currentSignal s in
  await_sleep task now seconds signal s.

(** The duration [clock.sync(beat, offset)] passes to [_accurateSleep];
    [None] when it returns without sleeping. *)
Definition sync_seconds (now beat offset : Q) (s : clock) : option Q :=
  if negb (_running s) then
    let sleepTime := beat * (60 / _tempo s) in
    Some sleepTime
  else
    let currentBeats := _getBeats now s in
    let nextBeat :=
      Js.num (Js.ceil ((currentBeats - offset) / beat)) * beat + offset in
    let nextBeat :=
      if Js.le nextBeat (currentBeats + (1 # 10000)) then nextBeat + beat
      else nextBeat in
    let beatsToWait := nextBeat - currentBeats in
    let secondsToWait := beatsToWait * (60 / _tempo s) in
    if Js.gt secondsToWait 0 then Some secondsToWait else None.

(** [clock.sync(beat, offset)] up to its [await], called by the code of
    [task]. *)
Definition sync (task : Z) (now beat offset : Q) (s : clock) : clock :=
  let signal := _currentSignal s in
  match sync_seconds now beat offset s with
  | Some seconds => await_sleep task now seconds signal s
  | None => set_currentSignal signal s
  end.

(** The timer callback of the [j]-th sleeper: after spinning until
    [targetTime] it resolves the promise. *)
Definition fire (j : nat) (s : clock) : clock :=
  match sleepers s !! j with
  | Some sl =>
      match awaited sl with
      | Waiting _ =>
          set_sleepers
            (<[j := {| owner := owner sl; signal := signal sl;
                       awaited := Resolved |}]> (sleepers s)) s
      | _ => s
      end
  | None => s
  end.

(** What follows the [await] in [sleep] and [sync] once the promise of the
    [j]-th sleeper is settled: [_currentSignal = signal] when it was
    resolved; when it was rejected the error leaves the function instead. *)
Definition resume (j : nat) (s : clock) : clock :=
  match sleepers s !! j with
  | Some sl =>
      match awaited sl with
      | Waiting _ => s
      | Resolved =>
          set_currentSignal (signal sl) (set_sleepers (delete j (sleepers s)) s)
      | Rejected _ => set_sleepers (delete j (sleepers s)) s
      end
  | None => s
  end.

(** [clock.run(fn)].  [fn] stands for the part of the user function that
    runs before its first suspension, as its effect on the clock; it is
    told the id of its own task only to label the sleeps it starts. *)
Definition run (fn : Z -> clock -> clock) (s : clock) : Z * clock :=
  let id := _nextId s in
  let s := set_nextId (id + 1)%Z s in
  let s := set_currentSignal (Some id) s in
  let s := fn id s in
  (id, set_coroutines (<[id := {| abort := id |}]> (_coroutines s)) s).

(** [abort.abort()]: the signal becomes aborted and the abort listeners
    run, each rejecting the promise of a sleeper that waits on this
    signal. *)
Definition reject_waiting (a : Z) (sl : sleeper) : sleeper :=
  match awaited sl with
  | Waiting _ =>
      if bool_decide (signal sl = Some a) then
        {| owner := owner sl; signal := signal sl;
           awaited := Rejected Js.AbortError |}
      else sl
  | _ => sl
  end.

Definition abort_controller (a : Z) (s : clock) : clock :=
  if bool_decide (a ∈ aborted s) then s
  else
    set_sleepers (reject_waiting a <$> sleepers s)
      (set_aborted ({[a]} ∪ aborted s) s).

(** [clock.cancel(id)] *)
Definition cancel (id : Z) (s : clock) : clock :=
  match _coroutines s !! id with
  | Some coro =>
      let s := abort_controller (abort coro) s in
      set_coroutines (delete id (_coroutines s)) s
  | None => s
  end.

(** The end of the task started by [run]: [err] is what [await fn()]
    threw, if anything.  The [catch] logs every error whose name is not
    AbortError, and the [finally] removes the id. *)
Definition finish (id : Z) (err : option Js.error) (s : clock) : clock :=
  let s :=
    match err with
    | Some Js.AbortError => s
    | Some _ => set_console (console s ++ [id]) s
    | None => s
    end in
  set_coroutines (delete id (_coroutines s)) s.

End Clock.

(** ** The values checked after a reset, and sample data *)

(** The state of voice [i] after a reset, field by field. *)
Definition reset_defaults (i : Z) (v : Processor.voice) : Prop :=
  Processor.buffer v = (if (i <? 3)%Z then 0%Z else 1%Z) /\
  Processor.rate v = 1%Q /\
  Processor.level v = 1%Q /\
  Processor.level_target v = 1%Q /\
  Processor.pan v = 0%Q /\
  Processor.loop v = false /\
  Processor.loop_start v = 0%Q /\
  Processor.loop_end v = Js.num 350 /\
  Processor.fade_time v = (1 # 100)%Q /\
  Processor.rec_level v = 1%Q /\
  Processor.enabled v = false /\
  Processor.playing v = false /\
  Processor.phase v = 0%Q /\
  Processor.position v = 0%Q /\
  Processor.level_slew_time v = 0%Q /\
  Processor.rec v = false /\
  Processor.pre_level v = 0%Q /\
  Processor.phase_quant v = 0%Q /\
  Processor.phase_accum v = 0%Q.

(** Concrete states on which the statements below are exercised. *)
Module Examples.

Import Processor.

(** Stand-ins for [Math.cos], [Math.sin] and [Math.PI]; no statement depends
    on the pan gains. *)
Definition cos_ (_ : Q) : Q := 7 # 10.
Definition sin_ (_ : Q) : Q := 7 # 10.
Definition pi_ : Q := 355 # 113.

(** Voice 0, enabled and playing from the start of the buffer. *)
Definition playing_voice : voice :=
  set_playing true (set_enabled true (new_voice 0)).

(** The same voice looping over the four samples [[0, 4)] at rate 3, with
    the head at sample 2. *)
Definition looping_voice : voice :=
  set_phase 2 (set_rate 3 (set_loop_end (1 # 12000)
    (set_loop true playing_voice))).

(** The same voice with loop on and an empty loop ([loop_end = loop_start]). *)
Definition degenerate_voice : voice :=
  set_loop_end 0 (set_loop true playing_voice).

(** A voice overdubbing at half level over half of the old content. *)
Definition recording_voice : voice :=
  set_pre_level (1 # 2) (set_rec_level (1 # 2) (set_rec true playing_voice)).

(** A voice reporting every sample ([phase_quant * 48000 = 1]) while running
    at rate 3. *)
Definition fast_voice : voice :=
  set_phase_quant (1 # 48000) (set_rate 3 playing_voice).

(** A voice reporting every four samples at rate 1. *)
Definition reporting_voice : voice :=
  set_phase_quant (1 # 12000) playing_voice.

(** A buffer holding 1, 3 at cells 0 and 1. *)
Definition some_buffer : Pcm.t := <[1%Z := 3%Q]> (<[0%Z := 1%Q]> ∅).

Definition kernel_of (v : voice) : kernel :=
  {| k_voice := v; k_buf := Some some_buffer; k_outL := [0%Q; 0%Q];
     k_outR := [0%Q; 0%Q]; k_posted := [] |}.

Definition locals_at_48k (v : voice) : locals :=
  locals_of 48000 cos_ sin_ pi_ v.

(** A task that sleeps for 100 s, and a task that first starts that one with
    [clock.run] and then sleeps for 10 s itself:
    [async () => { clock.run(child); await clock.sleep(10); }]. *)
Definition child (me : Z) (s : Clock.clock) : Clock.clock :=
  Clock.sleep me 0 100 s.

Definition parent (me : Z) (s : Clock.clock) : Clock.clock :=
  Clock.sleep me 0 10 (snd (Clock.run child s)).


End Examples.

(** ** The virtual MIDI bus ([lib/midi.js]) *)

(** The bit operators [&], [|], [<<] and [>>] convert their operands to
    32-bit signed integers first. *)
Module Int32.

Definition wrap (z : Z) : Z := ((z + 2 ^ 31) mod 2 ^ 32 - 2 ^ 31)%Z.
Definition and (a b : Z) : Z := Z.land (wrap a) (wrap b).
Definition or (a b : Z) : Z := Z.lor (wrap a) (wrap b).
Definition shl (a n : Z) : Z := wrap (Z.shiftl (wrap a) (n mod 32)).
Definition shr (a n : Z) : Z := Z.shiftr (wrap a) (n mod 32).

End Int32.

Module Midi.

(** [STATUS] *)
Definition NOTE_OFF : Z := 0x80.
Definition NOTE_ON : Z := 0x90.
Definition KEY_PRESSURE : Z := 0xa0.
Definition CC : Z := 0xb0.
Definition PROGRAM_CHANGE : Z := 0xc0.
Definition CHANNEL_PRESSURE : Z := 0xd0.
Definition PITCHBEND : Z := 0xe0.
Definition CLOCK : Z := 0xf8.
Definition START : Z := 0xfa.
Definition CONTINUE : Z := 0xfb.
Definition STOP : Z := 0xfc.

Definition MAX_PORTS : Z := 16.

(** The [type] strings that [to_msg] produces and [to_data] tells apart;
    [Other] is "other" and, for [to_data], any other string. *)
Inductive mtype :=
| NoteOn
| NoteOff
| Cc
| Pitchbend
| ChannelPressure
| KeyPressure
| ProgramChange
| Clock
| Start
| Stop
| Continue
| Other.

(** A message object.  A field that is [None] is absent ([undefined]); all
    numbers are integers. *)
Record msg := {
  type : mtype;
  note : option Z;
  vel : option Z;
  cc : option Z;
  val : option Z;
  ch : option Z;
  data : option (list Z)
}.

(** [{ type }] *)
Definition only (t : mtype) : msg :=
  {| type := t; note := None; vel := None; cc := None; val := None;
     ch := None; data := None |}.

(** [x & 0x7f] and the like, where an absent [x] converts to 0. *)
Definition and_opt (x : option Z) (mask : Z) : Z :=
  Int32.and (default 0%Z x) mask.

(** [x || d] for a number [x]: [d] when [x] is absent or 0. *)
Definition or_else (x : option Z) (d : Z) : Z :=
  match x with
  | Some v => if (v =? 0)%Z then d else v
  | None => d
  end.

(** [data[i]] *)
Definition byte_at (data : list Z) (i : nat) : option Z := data !! i.

(** [data[2] > 0], false when the element is absent. *)
Definition positive (x : option Z) : bool :=
  match x with
  | Some v => (0 <? v)%Z
  | None => false
  end.

(** [midi.to_msg(data)] for an array [data]; [None] is [null]. *)
Definition to_msg (data : list Z) : option msg :=
  match data with
  | [] => None
  | status :: _ =>
      if (0xf8 <=? status)%Z then
        Some (only (if (status =? CLOCK)%Z then Clock
                    else if (status =? START)%Z then Start
                    else if (status =? STOP)%Z then Stop
                    else if (status =? CONTINUE)%Z then Continue
                    else Other))
      else
        let type_nibble := Int32.and status 0xf0 in
        let ch := (Int32.and status 0x0f + 1)%Z in
        if (type_nibble =? NOTE_ON)%Z then
          Some {| type := if positive (byte_at data 2) then NoteOn else NoteOff;
                  note := byte_at data 1; vel := byte_at data 2; cc := None;
                  val := None; ch := Some ch; data := None |}
        else if (type_nibble =? NOTE_OFF)%Z then
          Some {| type := NoteOff; note := byte_at data 1;
                  vel := byte_at data 2; cc := None; val := None;
                  ch := Some ch; data := None |}
        else if (type_nibble =? KEY_PRESSURE)%Z then
          Some {| type := KeyPressure; note := byte_at data 1; vel := None;
                  cc := None; val := byte_at data 2; ch := Some ch;
                  data := None |}
        else if (type_nibble =? CC)%Z then
          Some {| type := Cc; note := None; vel := None;
                  cc := byte_at data 1; val := byte_at data 2; ch := Some ch;
                  data := None |}
        else if (type_nibble =? PROGRAM_CHANGE)%Z then
          Some {| type := ProgramChange; note := None; vel := None;
                  cc := None; val := byte_at data 1; ch := Some ch;
                  data := None |}
        else if (type_nibble =? CHANNEL_PRESSURE)%Z then
          Some {| type := ChannelPressure; note := None; vel := None;
                  cc := None; val := byte_at data 1; ch := Some ch;
                  data := None |}
        else if (type_nibble =? PITCHBEND)%Z then
          let raw :=
            Int32.or (default 0%Z (byte_at data 1))
                     (Int32.shl (default 0%Z (byte_at data 2)) 7) in
          Some {| type := Pitchbend; note := None; vel := None; cc := None;
                  val := Some (raw - 8192)%Z; ch := Some ch; data := None |}
        else
          Some {| type := Other; note := None; vel := None; cc := None;
                  val := None; ch := None; data := Some data |}
  end.

(** [Math.max(0, Math.min(16383, x))] on integers. *)
Definition clamp14 (x : Z) : Z := Z.max 0 (Z.min 16383 x).

(** [midi.to_data(msg)] *)
Definition to_data (m : msg) : list Z :=
  let ch := Int32.and (or_else (ch m) 1 - 1)%Z 0x0f in
  match type m with
  | NoteOn =>
      [Int32.or NOTE_ON ch; and_opt (note m) 0x7f;
       Int32.and (default 127%Z (vel m)) 0x7f]
  | NoteOff =>
      [Int32.or NOTE_OFF ch; and_opt (note m) 0x7f;
       Int32.and (default 0%Z (vel m)) 0x7f]
  | Cc => [Int32.or CC ch; and_opt (cc m) 0x7f; and_opt (val m) 0x7f]
  | Pitchbend =>
      let v := clamp14 (or_else (val m) 0 + 8192)%Z in
      [Int32.or PITCHBEND ch; Int32.and v 0x7f;
       Int32.and (Int32.shr v 7) 0x7f]
  | ChannelPressure => [Int32.or CHANNEL_PRESSURE ch; and_opt (val m) 0x7f]
  | KeyPressure =>
      [Int32.or KEY_PRESSURE ch; and_opt (note m) 0x7f; and_opt (val m) 0x7f]
  | ProgramChange => [Int32.or PROGRAM_CHANGE ch; and_opt (val m) 0x7f]
  | Clock => [CLOCK]
  | Start => [START]
  | Stop => [STOP]
  | Continue => [CONTINUE]
  | Other => default [] (data m)
  end.

(** *** Ports

    A [MidiPort] object lives at an address of the heap.  Its [event]
    callback is user code: what is kept of it is whether one is set and, in
    [inbox], the arrays it has been called with (oldest first). *)
Record port := {
  id : Z;
  event : bool;
  connected : bool;
  _targets : list Z;
  inbox : list (list Z)
}.

(** The heap of port objects, the module-level array [ports] (16 entries,
    [None] for [null]) and the descriptors passed to the [midi.add] and
    [midi.remove] callbacks when these are set. *)
Record bus := {
  heap : gmap Z port;
  next : Z;
  ports : list (option Z);
  add : bool;
  remove : bool;
  added : list Z;
  removed : list Z
}.

Definition set_heap (h : gmap Z port) (b : bus) : bus :=
  {| heap := h; next := next b; ports := ports b; add := add b;
     remove := remove b; added := added b; removed := removed b |}.

Definition initial : bus :=
  {| heap := ∅; next := 0; ports := replicate 16 None; add := false;
     remove := false; added := []; removed := [] |}.

(** [new MidiPort(id)], stored at a fresh address. *)
Definition new_port (n : Z) (b : bus) : Z * bus :=
  (next b,
   {| heap := <[next b := {| id := n; event := false; connected := true;
                             _targets := []; inbox := [] |}]> (heap b);
      next := (next b + 1)%Z; ports := ports b; add := add b;
      remove := remove b; added := added b; removed := removed b |}).

Definition update (a : Z) (f : port -> port) (b : bus) : bus :=
  match heap b !! a with
  | Some p => set_heap (<[a := f p]> (heap b)) b
  | None => b
  end.

(** [port.event = fn] and [port.event = null] *)
Definition set_event (a : Z) (on : bool) : bus -> bus :=
  update a (fun p => {| id := id p; event := on; connected := connected p;
                        _targets := _targets p; inbox := inbox p |}).

Definition set_targets (ts : list Z) (p : port) : port :=
  {| id := id p; event := event p; connected := connected p;
     _targets := ts; inbox := inbox p |}.

(** [this._targets.includes(target)] *)
Definition includes (ts : list Z) (target : Z) : bool :=
  bool_decide (target ∈ ts).

(** [port.wire(target)] for the port at [a] *)
Definition wire (a target : Z) : bus -> bus :=
  update a (fun p =>
    if negb (includes (_targets p) target)
    then set_targets (_targets p ++ [target]) p else p).

(** [port.unwire(target)] *)
Definition unwire (a target : Z) : bus -> bus :=
  update a (fun p =>
    set_targets (filter (fun t => t ≠ target) (_targets p)) p).

(** [target.event([...data])] when the target has a callback. *)
Definition deliver (data : list Z) (b : bus) (target : Z) : bus :=
  update target (fun p =>
    if event p
    then {| id := id p; event := event p; connected := connected p;
            _targets := _targets p; inbox := inbox p ++ [data] |}
    else p) b.

(** [port._dispatch(data)] and [port.send(data)] *)
Definition _dispatch (a : Z) (data : list Z) (b : bus) : bus :=
  match heap b !! a with
  | Some p => foldl (deliver data) b (_targets p)
  | None => b
  end.

Definition send (a : Z) (data : list Z) (b : bus) : bus := _dispatch a data b.

Definition clock (a : Z) : bus -> bus := send a [CLOCK].
Definition start (a : Z) : bus -> bus := send a [START].
Definition stop (a : Z) : bus -> bus := send a [STOP].
Definition continue (a : Z) : bus -> bus := send a [CONTINUE].

(** [midi.connect(n)]: the address of the port, or the RangeError. *)
Inductive connected_port :=
| Port (a : Z)
| RangeError.

Definition connect (n : Z) (b : bus) : connected_port * bus :=
  let idx := (n - 1)%Z in
  if (idx <? 0)%Z || (MAX_PORTS <=? idx)%Z then (RangeError, b)
  else
    match mjoin (ports b !! Z.to_nat idx) with
    | Some a => (Port a, b)
    | None =>
        let '(a, b) := new_port n b in
        (Port a,
         {| heap := heap b; next := next b;
            ports := <[Z.to_nat idx := Some a]> (ports b); add := add b;
            remove := remove b;
            added := if add b then added b ++ [n] else added b;
            removed := removed b |})
    end.

(** One round of the loop of [midi.cleanup()], for entry [i]. *)
Definition cleanup_entry (b : bus) (i : nat) : bus :=
  match mjoin (ports b !! i) with
  | Some a =>
      let pid := default 0%Z (id <$> heap b !! a) in
      let b := update a (fun p =>
                 {| id := id p; event := false; connected := connected p;
                    _targets := []; inbox := inbox p |}) b in
      {| heap := heap b; next := next b;
         ports := <[i := None]> (ports b); add := add b; remove := remove b;
         added := added b;
         removed := if remove b then removed b ++ [pid] else removed b |}
  | None => b
  end.

Definition cleanup (b : bus) : bus :=
  foldl cleanup_entry b (seq 0 (Z.to_nat MAX_PORTS)).

End Midi.

(** The messages [to_msg] can produce from well-formed bytes: the fields of
    the type are present and in range, nothing else is. *)
Definition canonical_msg (m : Midi.msg) : Prop :=
  let chan := exists c, Midi.ch m = Some c /\ (1 <= c <= 16)%Z in
  let seven (x : option Z) := exists v, x = Some v /\ (0 <= v <= 127)%Z in
  Midi.data m = None /\
  match Midi.type m with
  | Midi.NoteOn =>
      chan /\ seven (Midi.note m) /\
      (exists v, Midi.vel m = Some v /\ (1 <= v <= 127)%Z) /\
      Midi.cc m = None /\ Midi.val m = None
  | Midi.NoteOff =>
      chan /\ seven (Midi.note m) /\ seven (Midi.vel m) /\
      Midi.cc m = None /\ Midi.val m = None
  | Midi.KeyPressure =>
      chan /\ seven (Midi.note m) /\ seven (Midi.val m) /\
      Midi.cc m = None /\ Midi.vel m = None
  | Midi.Cc =>
      chan /\ seven (Midi.cc m) /\ seven (Midi.val m) /\
      Midi.note m = None /\ Midi.vel m = None
  | Midi.ProgramChange | Midi.ChannelPressure =>
      chan /\ seven (Midi.val m) /\
      Midi.note m = None /\ Midi.vel m = None /\ Midi.cc m = None
  | Midi.Pitchbend =>
      chan /\ (exists v, Midi.val m = Some v /\ (-8192 <= v <= 8191)%Z) /\
      Midi.note m = None /\ Midi.vel m = None /\ Midi.cc m = None
  | Midi.Clock | Midi.Start | Midi.Stop | Midi.Continue =>
      Midi.ch m = None /\ Midi.note m = None /\ Midi.vel m = None /\
      Midi.cc m = None /\ Midi.val m = None
  | Midi.Other => False
  end.

(** Well-formed MIDI bytes of a channel message or of one of the four
    real-time messages the module names. *)
Definition canonical_bytes (d : list Z) : Prop :=
  (exists nib c d1 d2,
      d = [(nib + c)%Z; d1; d2] /\
      (nib = 0x80 \/ nib = 0xa0 \/ nib = 0xb0 \/ nib = 0xe0 \/
       (nib = 0x90 /\ 1 <= d2))%Z /\
      (0 <= c <= 15)%Z /\ (0 <= d1 <= 127)%Z /\ (0 <= d2 <= 127)%Z) \/
  (exists nib c d1,
      d = [(nib + c)%Z; d1] /\ (nib = 0xc0 \/ nib = 0xd0)%Z /\
      (0 <= c <= 15)%Z /\ (0 <= d1 <= 127)%Z) \/
  (exists s, d = [s] /\ (s = 0xf8 \/ s = 0xfa \/ s = 0xfb \/ s = 0xfc)%Z).

(** Every port is wired to each target at most once. *)
Definition wired_once (b : Midi.bus) : Prop :=
  forall a p, Midi.heap b !! a = Some p -> NoDup (Midi._targets p).

(** The shape the constructor gives the processor and every command keeps:
    two buffers and six voices. *)
Definition well_shaped (p : Processor.processor) : Prop :=
  length (Processor.buffers p) = 2%nat /\
  length (Processor.voices p) = 6%nat.

(** Every voice selects one of the two buffers. *)
Definition buffers_selected (p : Processor.processor) : Prop :=
  Forall (fun v => Processor.buffer v = 0%Z \/ Processor.buffer v = 1%Z)
    (Processor.voices p).

(** * Properties *)

(** ** Comparisons as propositions *)

Lemma js_le_spec (a b : Q) : Js.le a b = true <-> (a <= b)%Q.
Proof. apply Qle_bool_iff. Qed.

Lemma js_le_false (a b : Q) : Js.le a b = false <-> (b < a)%Q.
Proof.
  unfold Js.le. split.
  - intros H. apply Qnot_le_lt. intros Hle.
    apply Qle_bool_iff in Hle. congruence.
  - intros H. destruct (Qle_bool a b) eqn:E; [|reflexivity].
    apply Qle_bool_iff in E. apply Qlt_not_le in H. contradiction.
Qed.

Lemma js_lt_spec (a b : Q) : Js.lt a b = true <-> (a < b)%Q.
Proof.
  unfold Js.lt. rewrite negb_true_iff. apply (js_le_false b a).
Qed.

Lemma js_lt_false (a b : Q) : Js.lt a b = false <-> (b <= a)%Q.
Proof.
  unfold Js.lt. rewrite negb_false_iff. apply (js_le_spec b a).
Qed.

Lemma js_gt_spec (a b : Q) : Js.gt a b = true <-> (b < a)%Q.
Proof. apply js_lt_spec. Qed.

Lemma js_gt_false (a b : Q) : Js.gt a b = false <-> (a <= b)%Q.
Proof. apply js_lt_false. Qed.

Lemma js_ge_spec (a b : Q) : Js.ge a b = true <-> (b <= a)%Q.
Proof. apply js_le_spec. Qed.

Lemma js_ge_false (a b : Q) : Js.ge a b = false <-> (a < b)%Q.
Proof. apply js_le_false. Qed.

(** Case analysis on a comparison, leaving the order fact in the context. *)
Ltac js_case e :=
  let E := fresh "E" in
  destruct e eqn:E;
  [ first [ apply js_lt_spec in E | apply js_le_spec in E
          | apply js_gt_spec in E | apply js_ge_spec in E ]
  | first [ apply js_lt_false in E | apply js_le_false in E
          | apply js_gt_false in E | apply js_ge_false in E ] ].

(** ** The buffers *)




(** ** Reset *)

Lemma reset_voice_new (i : Z) (v : Processor.voice) :
  Processor.reset_voice i v = Processor.new_voice i.
Proof. reflexivity. Qed.

Lemma new_voice_defaults (i : Z) : reset_defaults i (Processor.new_voice i).
Proof. unfold reset_defaults. simpl. repeat split. Qed.

(** C1, as amended: a [reset] command turns both buffers into all-zero
    buffers and gives each of the six voices the constructor's values:
    buffer 0 for voices 0-2 and 1 for voices 3-5, rate = level =
    level_target = 1, pan = 0, loop off, loop_start = 0, loop_end = 350,
    fade_time = 0.01, rec_level = 1, and 0/false in every other field. *)
Theorem reset_restores_defaults (sampleRate : Q) (p : Processor.processor) :
  length (Processor.buffers p) = 2%nat ->
  length (Processor.voices p) = 6%nat ->
  exists p',
    Processor._handleMessage sampleRate Processor.Reset p = Some p' /\
    length (Processor.buffers p') = 2%nat /\
    (forall (b : gmap Z Q) (i : Z), b ∈ Processor.buffers p' -> Pcm.get b i = 0%Q) /\
    length (Processor.voices p') = 6%nat /\
    (forall (i : nat) v,
        Processor.voices p' !! i = Some v -> reset_defaults (Z.of_nat i) v).
Proof.
  intros Hb Hv. destruct p as [bufs vs polling out]. simpl in Hb, Hv.
  destruct bufs as [|b0 [|b1 [|]]]; try discriminate.
  destruct vs as [|v0 [|v1 [|v2 [|v3 [|v4 [|v5 [|]]]]]]]; try discriminate.
  eexists. split; [reflexivity|]. simpl.
  split; [reflexivity|]. split; [|split; [reflexivity|]].
  - intros b i Hin.
    apply elem_of_cons in Hin as [->|Hin]; [reflexivity|].
    apply elem_of_cons in Hin as [->|Hin]; [reflexivity|].
    inversion Hin.
  - intros i v Hi.
    do 6 (destruct i as [|i];
          [injection Hi as <-; apply new_voice_defaults|]).
    discriminate.
Qed.

Lemma reset_restores_defaults_witness :
  exists p',
    Processor._handleMessage 48000 Processor.Reset Processor.construct = Some p' /\
    length (Processor.buffers p') = 2%nat /\
    (forall (b : gmap Z Q) (i : Z), b ∈ Processor.buffers p' -> Pcm.get b i = 0%Q) /\
    length (Processor.voices p') = 6%nat /\
    (forall (i : nat) v,
        Processor.voices p' !! i = Some v -> reset_defaults (Z.of_nat i) v).
Proof.
  apply (reset_restores_defaults 48000 Processor.construct); reflexivity.
Defined.

(** C1 as stated fails: after a reset the rec_level of a voice is 1, not 0. *)
Lemma reset_rec_level_is_one :
  exists p' v,
    Processor._handleMessage 48000 Processor.Reset Processor.construct = Some p' /\
    Processor.voices p' !! 0%nat = Some v /\
    Processor.rec_level v = 1%Q /\
    ~ (Processor.rec_level v == 0)%Q.
Proof.
  eexists. eexists. split; [reflexivity|]. split; [reflexivity|].
  split; [reflexivity|]. simpl. discriminate.
Qed.

(** ** The facade *)

Lemma sendVoice_enqueues {A} (cmd : Z -> A -> Processor.msg) (voice : Z)
    (value : A) (f : Softcut.facade) :
  Softcut.enqueued (Softcut._sendVoice cmd voice value f) =
    match Softcut.workletNode f with
    | Some port => port ++ [cmd (voice - 1)%Z value]
    | None => []
    end.
Proof.
  unfold Softcut._sendVoice, Softcut._send, Softcut.enqueued.
  destruct (Softcut.workletNode f) as [port|] eqn:E; simpl; [reflexivity|].
  now rewrite E.
Qed.

(** C2, as amended: a voice-targeted call never fails, whatever its voice
    index: it returns, and when the worklet node exists it has enqueued
    exactly one command, which carries the index [voice - 1]; only without a
    node is nothing enqueued. *)
Theorem voice_call_always_enqueues (c : Softcut.call) (f : Softcut.facade) :
  fst (Softcut.invoke c f) = Softcut.Returns /\
  Softcut.enqueued (snd (Softcut.invoke c f)) =
    match Softcut.workletNode f with
    | Some port => port ++ [Softcut.call_msg c]
    | None => []
    end.
Proof.
  split; [reflexivity|].
  destruct c; simpl snd; apply sendVoice_enqueues.
Qed.

(** C2 as stated fails: [enable(0, true)], whose voice index is outside
    [1,6], returns normally and enqueues the command for voice -1. *)
Lemma enable_voice_zero_is_enqueued :
  let c := Softcut.CallEnable 0 true in
  let f := {| Softcut.workletNode := Some [] |} in
  ~ (1 <= Softcut.call_voice c <= 6)%Z /\
  fst (Softcut.invoke c f) = Softcut.Returns /\
  Softcut.enqueued (snd (Softcut.invoke c f)) = [Processor.Enable (-1) true] /\
  Softcut.enqueued (snd (Softcut.invoke c f)) <> Softcut.enqueued f.
Proof.
  simpl. split; [lia|]. split; [reflexivity|]. split; [reflexivity|].
  discriminate.
Qed.

(** ** Clearing a region *)




(** ** The kernel *)

Section Kernel.

Import Processor.

Variable sampleRate : Q.
Variables Math_cos Math_sin : Q -> Q.
Variable Math_PI : Q.

Local Open Scope Q_scope.

Local Abbreviation frame := (Processor.frame sampleRate).
Local Abbreviation frames := (Processor.frames sampleRate).
Local Abbreviation locals_of :=
  (Processor.locals_of sampleRate Math_cos Math_sin Math_PI).

(** The slew only touches [level]. *)
Lemma slew_other_fields (r : Q) (v : voice) :
  playing (slew r v) = playing v /\ phase (slew r v) = phase v /\
  rate (slew r v) = rate v /\ loop (slew r v) = loop v /\
  rec (slew r v) = rec v /\ rec_level (slew r v) = rec_level v /\
  pre_level (slew r v) = pre_level v /\
  phase_quant (slew r v) = phase_quant v /\
  phase_accum (slew r v) = phase_accum v.
Proof.
  unfold slew.
  destruct (Js.neq _ _); [destruct (Js.lt _ _)|]; repeat split.
Qed.

(** The boundary policy touches [phase] and [playing] only. *)
Lemma boundary_other_fields (c : locals) (v : voice) :
  rate (boundary c v) = rate v /\ loop (boundary c v) = loop v /\
  rec (boundary c v) = rec v /\ rec_level (boundary c v) = rec_level v /\
  pre_level (boundary c v) = pre_level v /\
  phase_quant (boundary c v) = phase_quant v /\
  phase_accum (boundary c v) = phase_accum v /\
  level (boundary c v) = level v.
Proof.
  unfold boundary.
  destruct (loop v && _);
    [destruct (_ && _); [|destruct (_ && _)] | destruct (_ || _)];
    repeat split.
Qed.

(** Phase reporting touches [phase_accum] only. *)
Lemma report_other_fields (polling : bool) (vi : Z) (v : voice) :
  let v' := fst (report sampleRate polling vi v) in
  playing v' = playing v /\ phase v' = phase v /\ rate v' = rate v /\
  loop v' = loop v /\ rec v' = rec v /\ rec_level v' = rec_level v /\
  pre_level v' = pre_level v /\ phase_quant v' = phase_quant v /\
  level v' = level v.
Proof.
  unfold report.
  destruct (polling && _); [destruct (Js.ge _ _)|]; repeat split.
Qed.

(** With a buffer at hand the read yields a sample. *)
Lemma read_defined (b : gmap Z Q) (p : Q) :
  exists s, read (Some b) p = Some s.
Proof.
  unfold read. destruct (_ && _); [|destruct (_ && _)]; simpl; eauto.
Qed.

Lemma record_defined (inMono : option (list Q)) (i : nat) (v : voice)
    (p : Q) (b : gmap Z Q) :
  record inMono i v p (Some b) =
    Some (Some (if rec v && Pcm.in_range (Js.floor p)
                then Pcm.set b (Js.floor p)
                       (rec_level v * input_at inMono i
                        + pre_level v * Pcm.get b (Js.floor p))
                else b)).
Proof.
  unfold record, Pcm.in_range.
  destruct (rec v); [|reflexivity]. simpl.
  destruct (_ && _); reflexivity.
Qed.

(** One frame of a playing voice whose buffer exists, step by step. *)
Lemma frame_playing (polling : bool) (vi : Z) (c : locals)
    (inMono : option (list Q)) (i : nat) (k : kernel) (b : gmap Z Q) :
  playing (k_voice k) = true ->
  k_buf k = Some b ->
  let v1 := slew (slewRate c) (k_voice k) in
  let p := phase (k_voice k) in
  let v2 := boundary c (set_phase (p + rate v1) v1) in
  exists s,
    read (Some b) p = Some s /\
    frame polling vi c inMono i k =
      Some {| k_voice := fst (report sampleRate polling vi v2);
              k_buf :=
                Some (if rec v1 && Pcm.in_range (Js.floor p)
                      then Pcm.set b (Js.floor p)
                             (rec_level v1 * input_at inMono i
                              + pre_level v1 * Pcm.get b (Js.floor p))
                      else b);
              k_outL := add_at i (s * level v1 * fade c v1 p * gainL c) (k_outL k);
              k_outR := add_at i (s * level v1 * fade c v1 p * gainR c) (k_outR k);
              k_posted := k_posted k ++ snd (report sampleRate polling vi v2) |}.
Proof.
  intros Hplay Hbuf v1 p v2.
  destruct (slew_other_fields (slewRate c) (k_voice k))
    as (Hp & Hph & _).
  destruct (read_defined b p) as [s Hs]. exists s. split; [exact Hs|].
  unfold Processor.frame. cbv zeta. rewrite Hp, Hplay. simpl negb. cbv iota.
  rewrite Hbuf, Hph. fold p. rewrite Hs. simpl.
  rewrite record_defined. simpl.
  fold v1 v2. destruct (report sampleRate polling vi v2). reflexivity.
Qed.

(** A voice that is not playing only has its level slewed. *)
Lemma frame_not_playing (polling : bool) (vi : Z) (c : locals)
    (inMono : option (list Q)) (i : nat) (k : kernel) :
  playing (k_voice k) = false ->
  frame polling vi c inMono i k =
    Some {| k_voice := slew (slewRate c) (k_voice k); k_buf := k_buf k;
            k_outL := k_outL k; k_outR := k_outR k;
            k_posted := k_posted k |}.
Proof.
  intros Hplay. unfold Processor.frame.
  destruct (slew_other_fields (slewRate c) (k_voice k)) as (Hp & _).
  rewrite Hp, Hplay. reflexivity.
Qed.

(** C5: in a frame of a playing voice the sample that reaches the output
    (scaled by level, fade gain and pan gain) is the linear interpolation
    [buf[i0] * (1 - f) + buf[i0 + 1] * f] at [i0 = floor(phase)],
    [f = phase - i0] when [0 <= i0] and [i0 + 1 < BUF_FRAMES]; it is
    [buf[i0]] when only [i0] is inside the buffer; it is 0 otherwise, and
    the frame completes in each case. *)
Theorem read_is_linear_interpolation (polling : bool) (vi : Z) (c : locals)
    (inMono : option (list Q)) (i : nat) (k : kernel) (b : gmap Z Q) :
  playing (k_voice k) = true ->
  k_buf k = Some b ->
  let v := slew (slewRate c) (k_voice k) in
  let p := phase (k_voice k) in
  let i0 := Js.floor p in
  let f := p - Js.num i0 in
  exists s k',
    frame polling vi c inMono i k = Some k' /\
    k_outL k' = add_at i (s * level v * fade c v p * gainL c) (k_outL k) /\
    k_outR k' = add_at i (s * level v * fade c v p * gainR c) (k_outR k) /\
    ((0 <= i0)%Z -> (i0 + 1 < Pcm.BUF_FRAMES)%Z ->
     s = Pcm.get b i0 * (1 - f) + Pcm.get b (i0 + 1) * f) /\
    ((0 <= i0 < Pcm.BUF_FRAMES)%Z -> ~ (i0 + 1 < Pcm.BUF_FRAMES)%Z ->
     s = Pcm.get b i0) /\
    (~ (0 <= i0 < Pcm.BUF_FRAMES)%Z -> s = 0).
Proof.
  intros Hplay Hbuf v p i0 f.
  destruct (frame_playing polling vi c inMono i k b Hplay Hbuf)
    as (s & Hs & Hframe).
  exists s. eexists. split; [exact Hframe|]. simpl.
  split; [reflexivity|]. split; [reflexivity|].
  unfold read in Hs. fold p i0 f in Hs.
  destruct (0 <=? i0)%Z eqn:E0; destruct (i0 + 1 <? Pcm.BUF_FRAMES)%Z eqn:E1;
    destruct (i0 <? Pcm.BUF_FRAMES)%Z eqn:E2; simpl in Hs;
    injection Hs as <-; repeat split; intros; try reflexivity; lia.
Qed.

(** Without an effective loop the boundary policy is the one-shot one. *)
Lemma boundary_one_shot (c : locals) (v : voice) :
  loop v && Js.gt (loopLen c) 0 = false ->
  phase (boundary c v) = phase v /\
  playing (boundary c v) =
    if Js.ge (phase v) (Js.num Pcm.BUF_FRAMES) || Js.lt (phase v) 0
    then false else playing v.
Proof.
  intros H. unfold boundary. rewrite H.
  destruct (_ || _); split; reflexivity.
Qed.

(** C10: with loop on but a loop length that is not positive, a frame of a
    playing voice does not wrap: the phase advances by [rate], and the voice
    stops playing exactly when the new phase is at or beyond [BUF_FRAMES] or
    below 0. *)
Theorem degenerate_loop_is_one_shot (polling : bool) (vi : Z)
    (inMono : option (list Q)) (i : nat) (k : kernel) (b : gmap Z Q) :
  let v := k_voice k in
  playing v = true ->
  k_buf k = Some b ->
  loop v = true ->
  loop_end v * sampleRate <= loop_start v * sampleRate ->
  exists k',
    frame polling vi (locals_of v) inMono i k = Some k' /\
    phase (k_voice k') = phase v + rate v /\
    (Js.num Pcm.BUF_FRAMES <= phase v + rate v \/ phase v + rate v < 0 ->
     playing (k_voice k') = false) /\
    (0 <= phase v + rate v < Js.num Pcm.BUF_FRAMES ->
     playing (k_voice k') = true).
Proof.
  intros v Hplay Hbuf Hloop Hlen.
  destruct (frame_playing polling vi (locals_of v) inMono i k b Hplay Hbuf)
    as (s & _ & Hframe).
  eexists. split; [exact Hframe|]. cbn [k_voice].
  destruct (slew_other_fields (slewRate (locals_of v)) v)
    as (Hp1 & Hph1 & Hr1 & Hl1 & _).
  fold v. set (v1 := slew (slewRate (locals_of v)) v) in *.
  set (v3 := set_phase (phase v + rate v1) v1).
  destruct (report_other_fields polling vi (boundary (locals_of v) v3))
    as (Hp & Hph & _).
  rewrite Hp, Hph.
  destruct (boundary_one_shot (locals_of v) v3) as [Hbp Hbl].
  { change (loop v3) with (loop v1). rewrite Hl1, Hloop. simpl.
    apply js_gt_false. lra. }
  rewrite Hbp, Hbl.
  change (phase v3) with (phase v + rate v1).
  change (playing v3) with (playing v1). rewrite Hr1, Hp1, Hplay.
  split; [reflexivity|].
  js_case (Js.ge (phase v + rate v) (Js.num Pcm.BUF_FRAMES)); simpl orb.
  - split; [reflexivity | intros; lra].
  - js_case (Js.lt (phase v + rate v) 0).
    + split; [reflexivity | intros; lra].
    + split; [intros [?|?]; lra | reflexivity].
Qed.

(** *** Phase reporting *)

Lemma report_polling (vi : Z) (v : voice) :
  0 < phase_quant v ->
  let q := phase_quant v * sampleRate in
  let a := phase_accum v + Js.abs (rate v) in
  (q <= a ->
   report sampleRate true vi v =
     (set_phase_accum (a - q) (set_phase_accum a v),
      [PhaseEvent vi (phase v / sampleRate)])) /\
  (a < q -> report sampleRate true vi v = (set_phase_accum a v, [])).
Proof.
  intros Hq q a. unfold report. simpl andb.
  assert (Hgt : Js.gt (phase_quant v) 0 = true) by now apply js_gt_spec.
  rewrite Hgt. cbv zeta.
  change (phase_quant (set_phase_accum (phase_accum v + Js.abs (rate v)) v))
    with (phase_quant v).
  change (phase_accum (set_phase_accum (phase_accum v + Js.abs (rate v)) v))
    with a.
  fold q. split; intros H.
  - apply js_ge_spec in H. rewrite H. reflexivity.
  - apply js_ge_false in H. rewrite H. reflexivity.
Qed.

(** C4, as amended: in a frame of a playing voice with polling on and
    [phase_quant > 0], [phase_accum] grows by [|rate|]; if it has then
    reached [phase_quant * sampleRate] that quantum is subtracted once and
    exactly one phase event, carrying [phase / sampleRate] for this voice,
    is posted; otherwise nothing is posted.  Afterwards [phase_accum] is
    below the quantum provided it was before and [|rate|] does not exceed
    the quantum. *)
Theorem phase_report_once_per_frame (vi : Z) (c : locals)
    (inMono : option (list Q)) (i : nat) (k : kernel) (b : gmap Z Q) :
  let v := k_voice k in
  let q := phase_quant v * sampleRate in
  let a := phase_accum v + Js.abs (rate v) in
  playing v = true ->
  k_buf k = Some b ->
  0 < phase_quant v ->
  exists k',
    frame true vi c inMono i k = Some k' /\
    (q <= a ->
     phase_accum (k_voice k') = a - q /\
     k_posted k' =
       k_posted k ++ [PhaseEvent vi (phase (k_voice k') / sampleRate)]) /\
    (a < q ->
     phase_accum (k_voice k') = a /\ k_posted k' = k_posted k) /\
    (phase_accum v < q -> Js.abs (rate v) <= q ->
     phase_accum (k_voice k') < q).
Proof.
  intros v q a Hplay Hbuf Hq.
  destruct (frame_playing true vi c inMono i k b Hplay Hbuf)
    as (s & _ & Hframe).
  eexists. split; [exact Hframe|]. cbn [k_voice k_posted]. fold v.
  destruct (slew_other_fields (slewRate c) v)
    as (_ & _ & Hr1 & _ & _ & _ & _ & Hq1 & Ha1).
  set (v1 := slew (slewRate c) v) in *.
  set (v3 := set_phase (phase v + rate v1) v1).
  destruct (boundary_other_fields c v3)
    as (Hr2 & _ & _ & _ & _ & Hq2 & Ha2 & _).
  set (v2 := boundary c v3) in *.
  assert (Hrate : rate v2 = rate v) by (rewrite Hr2; exact Hr1).
  assert (Hquant : phase_quant v2 = phase_quant v) by (rewrite Hq2; exact Hq1).
  assert (Haccum : phase_accum v2 = phase_accum v) by (rewrite Ha2; exact Ha1).
  destruct (report_polling vi v2) as [Hge Hlt]; [rewrite Hquant; exact Hq|].
  rewrite Hrate, Hquant, Haccum in Hge, Hlt. fold q a in Hge, Hlt.
  assert (Hyes : q <= a ->
                 phase_accum (report sampleRate true vi v2).1 = a - q /\
                 k_posted k ++ (report sampleRate true vi v2).2 =
                   k_posted k ++
                     [PhaseEvent vi
                        (phase (report sampleRate true vi v2).1 / sampleRate)]).
  { intros H. rewrite (Hge H). split; reflexivity. }
  assert (Hno : a < q ->
                phase_accum (report sampleRate true vi v2).1 = a /\
                k_posted k ++ (report sampleRate true vi v2).2 = k_posted k).
  { intros H. rewrite (Hlt H). split; [reflexivity | apply app_nil_r]. }
  split; [exact Hyes|]. split; [exact Hno|].
  intros Hbefore Hrate_le.
  destruct (Qlt_le_dec a q) as [H|H].
  - destruct (Hno H) as [-> _]. exact H.
  - destruct (Hyes H) as [-> _]. unfold a. lra.
Qed.

(** *** Looping *)





(** *** Recording *)






Lemma at_index_lookup {A} (l : list A) (z : Z) (x : A) :
  at_index l z = Some x -> l !! Z.to_nat z = Some x.
Proof. unfold at_index. destruct (z <? 0)%Z; [discriminate | auto]. Qed.


End Kernel.

(** ** The kernel statements on concrete voices *)

(** A whole block: after [enable(1, 1)] and [play(1, 1)] have been handled,
    [process] on a block of two frames moves the head of voice 0 from 0 to 2,
    leaves the five idle voices and the buffers alone and posts nothing. *)
Example process_advances_playing_voice :
  exists p r v,
    (Processor._handleMessage 48000 (Processor.Enable 0 true)
       Processor.construct
     ≫= Processor._handleMessage 48000 (Processor.Play 0 true)) = Some p /\
    Processor.process 48000 Examples.cos_ Examples.sin_ Examples.pi_
      None 2 p = Some r /\
    Processor.voices (Processor.r_proc r) !! 0%nat = Some v /\
    (Processor.phase v == 2)%Q /\
    Processor.playing v = true /\
    drop 1 (Processor.voices (Processor.r_proc r))
      = drop 1 (Processor.voices Processor.construct) /\
    Processor.buffers (Processor.r_proc r) = [Pcm.zeros; Pcm.zeros] /\
    Processor.posted (Processor.r_proc r) = [] /\
    length (Processor.r_outL r) = 2%nat.
Proof.
  eexists. eexists. eexists.
  split; [vm_compute; reflexivity|]. split; [vm_compute; reflexivity|].
  split; [reflexivity|]. repeat split; reflexivity.
Qed.

(** C4 as stated fails: with a quantum of one sample and rate 3, one frame
    leaves [phase_accum] at 2, not below the quantum, and posts one event. *)
Lemma fast_voice_exceeds_quantum :
  exists k',
    Processor.frame 48000 true 0 (Examples.locals_at_48k Examples.fast_voice)
      None 0 (Examples.kernel_of Examples.fast_voice) = Some k' /\
    (Processor.phase_accum (Processor.k_voice k') == 2)%Q /\
    (Processor.phase_quant (Processor.k_voice k') * 48000 == 1)%Q /\
    ~ (Processor.phase_accum (Processor.k_voice k')
       < Processor.phase_quant (Processor.k_voice k') * 48000)%Q /\
    length (Processor.k_posted k') = 1%nat.
Proof.
  eexists. split; [vm_compute; reflexivity|].
  split; [reflexivity|]. split; [reflexivity|].
  split; [|reflexivity]. vm_compute. discriminate.
Qed.

Lemma phase_report_once_per_frame_witness :
  exists k',
    Processor.frame 48000 true 0
      (Examples.locals_at_48k Examples.reporting_voice) None 0
      (Examples.kernel_of Examples.reporting_voice) = Some k' /\
    Processor.phase_accum (Processor.k_voice k') = (0 + Js.abs 1)%Q /\
    Processor.k_posted k' = [].
Proof.
  destruct (phase_report_once_per_frame 48000 0
              (Examples.locals_at_48k Examples.reporting_voice) None 0
              (Examples.kernel_of Examples.reporting_voice)
              Examples.some_buffer)
    as (k' & Hframe & _ & Hbelow & _);
    [reflexivity | reflexivity | reflexivity |].
  exists k'. split; [exact Hframe|]. apply Hbelow. reflexivity.
Defined.

Lemma read_is_linear_interpolation_witness :
  exists s k',
    Processor.frame 48000 false 0
      (Examples.locals_at_48k Examples.playing_voice) None 0
      (Examples.kernel_of Examples.playing_voice) = Some k' /\
    s = (Pcm.get Examples.some_buffer 0 * (1 - (0 - Js.num 0))
         + Pcm.get Examples.some_buffer (0 + 1) * (0 - Js.num 0))%Q.
Proof.
  destruct (read_is_linear_interpolation 48000 false 0
              (Examples.locals_at_48k Examples.playing_voice) None 0
              (Examples.kernel_of Examples.playing_voice)
              Examples.some_buffer)
    as (s & k' & Hframe & _ & _ & Hinterp & _);
    [reflexivity | reflexivity |].
  exists s, k'. split; [exact Hframe|].
  apply Hinterp; vm_compute; [discriminate | reflexivity].
Defined.

Lemma degenerate_loop_is_one_shot_witness :
  exists k',
    Processor.frame 48000 false 0
      (Examples.locals_at_48k Examples.degenerate_voice) None 0
      (Examples.kernel_of Examples.degenerate_voice) = Some k' /\
    Processor.phase (Processor.k_voice k') = (0 + 1)%Q /\
    Processor.playing (Processor.k_voice k') = true.
Proof.
  destruct (degenerate_loop_is_one_shot 48000 Examples.cos_ Examples.sin_
              Examples.pi_ false 0 None 0
              (Examples.kernel_of Examples.degenerate_voice)
              Examples.some_buffer)
    as (k' & Hframe & Hphase & _ & Hplay);
    [reflexivity | reflexivity | reflexivity | vm_compute; discriminate |].
  exists k'. split; [exact Hframe|]. split; [exact Hphase|].
  apply Hplay. split; vm_compute; [discriminate | reflexivity].
Defined.



(** ** The clock *)

Section Sync.

Import Clock.

Local Open Scope Q_scope.




End Sync.


(** ** Cancellation *)

(** Cancelling an id that is not registered (never issued, already
    cancelled, or finished) changes nothing. *)
Lemma cancel_unregistered (id : Z) (s : Clock.clock) :
  Clock._coroutines s !! id = None -> Clock.cancel id s = s.
Proof. intros H. unfold Clock.cancel. now rewrite H. Qed.

Lemma cancel_unregisters (id : Z) (s : Clock.clock) :
  Clock._coroutines (Clock.cancel id s) !! id = None.
Proof.
  unfold Clock.cancel. destruct (Clock._coroutines s !! id) as [c|] eqn:E.
  - cbn [Clock._coroutines Clock.set_coroutines].
    apply lookup_delete_eq.
  - exact E.
Qed.

(** Cancelling twice is cancelling once. *)
Lemma cancel_idempotent (id : Z) (s : Clock.clock) :
  Clock.cancel id (Clock.cancel id s) = Clock.cancel id s.
Proof. apply cancel_unregistered, cancel_unregisters. Qed.

(** Cancelling the id of a task that has finished changes nothing. *)
Lemma cancel_after_finish (id : Z) (err : option Js.error) (s : Clock.clock) :
  Clock.cancel id (Clock.finish id err s) = Clock.finish id err s.
Proof.
  apply cancel_unregistered. unfold Clock.finish.
  cbn [Clock._coroutines Clock.set_coroutines]. apply lookup_delete_eq.
Qed.

(** A task that ends with the AbortError is not logged. *)
Lemma finish_abort_not_logged (id : Z) (s : Clock.clock) :
  Clock.console (Clock.finish id (Some Js.AbortError) s) = Clock.console s.
Proof. reflexivity. Qed.

(** Cancelling rejects, with the AbortError, every waiting sleep that
    captured the signal of the cancelled task. *)
Lemma cancel_rejects_own_signal (id : Z) (s : Clock.clock) (j : nat)
    (sl : Clock.sleeper) (t : Q) :
  Clock._coroutines s !! id = Some {| Clock.abort := id |} ->
  id ∉ Clock.aborted s ->
  Clock.sleepers s !! j = Some sl ->
  Clock.signal sl = Some id ->
  Clock.awaited sl = Clock.Waiting t ->
  Clock.awaited <$> (Clock.sleepers (Clock.cancel id s) !! j)
    = Some (Clock.Rejected Js.AbortError).
Proof.
  intros Hreg Hfresh Hj Hsig Hwait. unfold Clock.cancel. rewrite Hreg.
  cbn [Clock.abort Clock.sleepers Clock.set_coroutines].
  unfold Clock.abort_controller.
  rewrite bool_decide_eq_false_2 by exact Hfresh.
  cbn [Clock.sleepers Clock.set_sleepers].
  rewrite list_lookup_fmap, Hj. simpl.
  unfold Clock.reject_waiting. rewrite Hwait.
  rewrite bool_decide_eq_true_2 by exact Hsig. reflexivity.
Qed.

(** C8, where the code departs from it: a task that starts another task
    with [clock.run] and then sleeps captures the signal of that other task
    ([_currentSignal] is one variable for all tasks).  Cancelling the first
    task then removes its id but leaves its sleep waiting, and cancelling
    the second task rejects the sleep of the first. *)
Theorem cancel_misses_sleep_after_nested_run :
  let '(id, s) := Clock.run Examples.parent (Clock.initial 0) in
  id = 1%Z /\
  Clock._coroutines s !! 1%Z = Some {| Clock.abort := 1 |} /\
  Clock.sleepers s !! 1%nat
    = Some {| Clock.owner := 1; Clock.signal := Some 2%Z;
              Clock.awaited := Clock.Waiting (0 + 10) |} /\
  Clock._coroutines (Clock.cancel 1 s) !! 1%Z = None /\
  Clock.sleepers (Clock.cancel 1 s) = Clock.sleepers s /\
  Clock.awaited <$> (Clock.sleepers (Clock.cancel 2 s) !! 1%nat)
    = Some (Clock.Rejected Js.AbortError).
Proof. vm_compute. repeat split; reflexivity. Qed.

(** * Further properties of the code *)

(** ** MIDI bytes *)

(** A boolean test that holds on a whole range holds at each of its
    points. *)
Lemma forall_range (P : Z -> bool) (lo : Z) (n : nat) :
  forallb P ((fun i => lo + Z.of_nat i)%Z <$> seq 0 n) = true ->
  forall z, (lo <= z < lo + Z.of_nat n)%Z -> P z = true.
Proof.
  intros H z Hz. rewrite forallb_forall in H. apply H.
  apply list_elem_of_In, list_elem_of_fmap. exists (Z.to_nat (z - lo)).
  split; [lia|]. apply elem_of_seq. lia.
Qed.

Lemma int32_wrap_small (z : Z) :
  (- 2 ^ 31 <= z < 2 ^ 31)%Z -> Int32.wrap z = z.
Proof.
  unfold Int32.wrap. change (2 ^ 31)%Z with 2147483648%Z.
  change (2 ^ 32)%Z with 4294967296%Z. intros H.
  rewrite Z.mod_small by lia. lia.
Qed.

Lemma int32_and_127 (x : Z) : Int32.and x 0x7f = (x mod 128)%Z.
Proof.
  unfold Int32.and. change (Int32.wrap 127) with (Z.ones 7).
  rewrite Z.land_ones by lia. unfold Int32.wrap.
  change (2 ^ 31)%Z with 2147483648%Z. change (2 ^ 32)%Z with 4294967296%Z.
  change (2 ^ 7)%Z with 128%Z. Z.to_euclidean_division_equations. lia.
Qed.

Lemma int32_and_15 (x : Z) : Int32.and x 0x0f = (x mod 16)%Z.
Proof.
  unfold Int32.and. change (Int32.wrap 15) with (Z.ones 4).
  rewrite Z.land_ones by lia. unfold Int32.wrap.
  change (2 ^ 31)%Z with 2147483648%Z. change (2 ^ 32)%Z with 4294967296%Z.
  change (2 ^ 4)%Z with 16%Z. Z.to_euclidean_division_equations. lia.
Qed.

(** A status byte is its type nibble plus the channel. *)
Lemma status_or (nib c : Z) :
  (nib = 0x80 \/ nib = 0x90 \/ nib = 0xa0 \/ nib = 0xb0 \/ nib = 0xc0 \/
   nib = 0xd0 \/ nib = 0xe0)%Z ->
  (0 <= c <= 15)%Z -> Int32.or nib c = (nib + c)%Z.
Proof.
  intros Hn Hc.
  assert (H : forall n0,
             forallb (fun z => Int32.or n0 z =? n0 + z)%Z
               ((fun i => 0 + Z.of_nat i)%Z <$> seq 0 16) = true ->
             Int32.or n0 c = (n0 + c)%Z).
  { intros n0 E. apply Z.eqb_eq.
    apply (forall_range (fun z => Int32.or n0 z =? n0 + z)%Z 0 16 E). lia. }
  destruct Hn as [->|[->|[->|[->|[->|[->| ->]]]]]]; apply H;
    vm_compute; reflexivity.
Qed.

Lemma status_split (s : Z) :
  (0x80 <= s <= 0xef)%Z ->
  Int32.and s 0xf0 = (s / 16 * 16)%Z /\ Int32.and s 0x0f = (s mod 16)%Z.
Proof.
  intros Hs. split; [|apply int32_and_15].
  apply Z.eqb_eq.
  apply (forall_range (fun z => Int32.and z 0xf0 =? z / 16 * 16)%Z 0x80 112);
    [reflexivity | lia].
Qed.

(** The two data bytes of a 14-bit value put it together again. *)
Lemma fourteen_bits (v : Z) :
  (0 <= v <= 16383)%Z ->
  Int32.or (Int32.and v 0x7f) (Int32.shl (Int32.and (Int32.shr v 7) 0x7f) 7)
    = v.
Proof.
  intros Hv. apply Z.eqb_eq.
  apply (forall_range
           (fun z => Int32.or (Int32.and z 0x7f)
                       (Int32.shl (Int32.and (Int32.shr z 7) 0x7f) 7) =? z)%Z
           0 (Z.to_nat 16384)); [vm_compute; reflexivity | lia].
Qed.

Lemma fourteen_bits_split (lo hi : Z) :
  (0 <= lo <= 127)%Z -> (0 <= hi <= 127)%Z ->
  Int32.and (lo + 128 * hi) 0x7f = lo /\
  Int32.and (Int32.shr (lo + 128 * hi) 7) 0x7f = hi /\
  Int32.or lo (Int32.shl hi 7) = (lo + 128 * hi)%Z.
Proof.
  intros Hlo Hhi.
  assert (Hv : (0 <= lo + 128 * hi <= 16383)%Z) by lia.
  pose proof (fourteen_bits _ Hv) as H.
  assert (H1 : Int32.and (lo + 128 * hi) 0x7f = lo)
    by (rewrite int32_and_127; Z.to_euclidean_division_equations; lia).
  assert (H2 : Int32.and (Int32.shr (lo + 128 * hi) 7) 0x7f = hi).
  { rewrite int32_and_127. unfold Int32.shr.
    rewrite int32_wrap_small
      by (change (2 ^ 31)%Z with 2147483648%Z; lia).
    change (7 mod 32)%Z with 7%Z.
    rewrite Z.shiftr_div_pow2 by lia. change (2 ^ 7)%Z with 128%Z.
    Z.to_euclidean_division_equations. lia. }
  rewrite H1, H2 in H. auto.
Qed.

Lemma status_facts (nib c : Z) :
  (nib = 0x80 \/ nib = 0x90 \/ nib = 0xa0 \/ nib = 0xb0 \/ nib = 0xc0 \/
   nib = 0xd0 \/ nib = 0xe0)%Z ->
  (0 <= c <= 15)%Z ->
  (0xf8 <=? nib + c)%Z = false /\
  Int32.and (nib + c) 0xf0 = nib /\
  Int32.and (nib + c) 0x0f = c.
Proof.
  intros Hn Hc.
  destruct (status_split (nib + c)) as [H1 H2]; [lia|].
  rewrite H1, H2. split; [apply Z.leb_gt; lia|].
  split; Z.to_euclidean_division_equations; lia.
Qed.

(** The channel number of a message with a channel in 1..16. *)
Lemma channel_bits (c : Z) :
  (1 <= c <= 16)%Z ->
  Int32.and (Midi.or_else (Some c) 1 - 1) 0x0f = (c - 1)%Z.
Proof.
  intros Hc. unfold Midi.or_else.
  destruct (Z.eqb_spec c 0); [lia|].
  rewrite int32_and_15. Z.to_euclidean_division_equations. lia.
Qed.

Lemma seven_bits (v : Z) : (0 <= v <= 127)%Z -> Int32.and v 0x7f = v.
Proof.
  intros Hv. rewrite int32_and_127. Z.to_euclidean_division_equations. lia.
Qed.

(** The status byte of an encoded message. *)
Lemma encode_status (nib c : Z) :
  (nib = 0x80 \/ nib = 0x90 \/ nib = 0xa0 \/ nib = 0xb0 \/ nib = 0xc0 \/
   nib = 0xd0 \/ nib = 0xe0)%Z ->
  (1 <= c <= 16)%Z ->
  Int32.or nib (Int32.and (Midi.or_else (Some c) 1 - 1) 0x0f)
    = (nib + (c - 1))%Z.
Proof.
  intros Hn Hc. rewrite channel_bits by exact Hc. apply status_or; [exact Hn | lia].
Qed.

#[local] Arguments Int32.and : simpl never.
#[local] Arguments Int32.or : simpl never.
#[local] Arguments Int32.shl : simpl never.
#[local] Arguments Int32.shr : simpl never.
#[local] Arguments Midi.or_else : simpl never.
#[local] Arguments Midi.clamp14 : simpl never.

(** Decoding a status byte built from a type nibble and a channel. *)
Ltac decode_status :=
  match goal with
  | |- context [Midi.to_msg ((?nib + ?c)%Z :: _)] =>
      let H1 := fresh in let H2 := fresh in let H3 := fresh in
      destruct (status_facts nib c) as (H1 & H2 & H3);
      [auto 10 | lia |];
      unfold Midi.to_msg; rewrite H1, H2, H3; cbn
  end.

Ltac encode_fields :=
  unfold Midi.to_data, Midi.and_opt;
  cbn [Midi.type Midi.ch Midi.note Midi.vel Midi.cc Midi.val Midi.data
       default id];
  rewrite ?encode_status by (auto 10 || lia);
  rewrite ?seven_bits by lia.

(** X1: encoding a message and parsing the bytes gives the message back,
    for every message whose fields are those of its type and in range (a
    note-on needs a velocity of at least 1). *)
Theorem midi_msg_round_trip (m : Midi.msg) :
  canonical_msg m -> Midi.to_msg (Midi.to_data m) = Some m.
Proof.
  destruct m as [t n v cc x c d]. unfold canonical_msg. simpl.
  intros [-> H].
  destruct t; try contradiction.
  - destruct H as ((c0 & -> & Hc) & (n0 & -> & Hn) & (v0 & -> & Hv) & -> & ->).
    encode_fields. decode_status.
    destruct (Z.ltb_spec 0 v0); [|lia]. do 3 f_equal. f_equal. lia.
  - destruct H as ((c0 & -> & Hc) & (n0 & -> & Hn) & (v0 & -> & Hv) & -> & ->).
    encode_fields. decode_status. do 3 f_equal. f_equal. lia.
  - destruct H as ((c0 & -> & Hc) & (n0 & -> & Hn) & (v0 & -> & Hv) & -> & ->).
    encode_fields. decode_status. do 3 f_equal. f_equal. lia.
  - destruct H as ((c0 & -> & Hc) & (v0 & -> & Hv) & -> & -> & ->).
    encode_fields. unfold Midi.or_else, Midi.clamp14.
    replace (Z.max 0 (Z.min 16383 ((if (v0 =? 0)%Z then 0 else v0) + 8192)))
      with (v0 + 8192)%Z by (destruct (Z.eqb_spec v0 0); lia).
    decode_status. rewrite fourteen_bits by lia. do 3 f_equal; f_equal; lia.
  - destruct H as ((c0 & -> & Hc) & (v0 & -> & Hv) & -> & -> & ->).
    encode_fields. decode_status. do 3 f_equal. f_equal. lia.
  - destruct H as ((c0 & -> & Hc) & (n0 & -> & Hn) & (v0 & -> & Hv) & -> & ->).
    encode_fields. decode_status. do 3 f_equal. f_equal. lia.
  - destruct H as ((c0 & -> & Hc) & (v0 & -> & Hv) & -> & -> & ->).
    encode_fields. decode_status. do 3 f_equal. f_equal. lia.
  - destruct H as (-> & -> & -> & -> & ->). reflexivity.
  - destruct H as (-> & -> & -> & -> & ->). reflexivity.
  - destruct H as (-> & -> & -> & -> & ->). reflexivity.
  - destruct H as (-> & -> & -> & -> & ->). reflexivity.
Qed.

Lemma midi_msg_round_trip_witness :
  let m := {| Midi.type := Midi.NoteOn; Midi.note := Some 60%Z;
              Midi.vel := Some 100%Z; Midi.cc := None; Midi.val := None;
              Midi.ch := Some 3%Z; Midi.data := None |} in
  Midi.to_data m = [0x92; 60; 100]%Z /\
  Midi.to_msg (Midi.to_data m) = Some m.
Proof.
  split; [reflexivity|].
  apply midi_msg_round_trip. unfold canonical_msg. simpl.
  repeat split; eauto; eexists; (split; [reflexivity | lia]).
Defined.

(** The channel of a parsed message, encoded again. *)
Lemma reencode_status (nib c : Z) :
  (nib = 0x80 \/ nib = 0x90 \/ nib = 0xa0 \/ nib = 0xb0 \/ nib = 0xc0 \/
   nib = 0xd0 \/ nib = 0xe0)%Z ->
  (0 <= c <= 15)%Z ->
  Int32.or nib (Int32.and (Midi.or_else (Some (c + 1)%Z) 1 - 1) 0x0f)
    = (nib + c)%Z.
Proof.
  intros Hn Hc. rewrite encode_status by (auto || lia). lia.
Qed.

Ltac reencode :=
  unfold Midi.to_data, Midi.and_opt;
  cbn [Midi.type Midi.ch Midi.note Midi.vel Midi.cc Midi.val Midi.data
       default id fmap option_fmap option_map];
  rewrite ?reencode_status by (auto 10 || lia);
  rewrite ?seven_bits by lia.

(** X2: parsing well-formed bytes (a channel message of the right length
    with 7-bit data bytes, other than a note-on of velocity 0, or one of
    clock, start, continue, stop) and encoding the message gives the bytes
    back. *)
Theorem midi_bytes_round_trip (d : list Z) :
  canonical_bytes d -> Midi.to_data <$> Midi.to_msg d = Some d.
Proof.
  intros [(nib & c & d1 & d2 & -> & Hn & Hc & H1 & H2)
         |[(nib & c & d1 & -> & Hn & Hc & H1)
         |(s & -> & Hs)]].
  - destruct Hn as [->|[->|[->|[->|[-> Hv]]]]]; decode_status.
    + reencode. reflexivity.
    + reencode. reflexivity.
    + reencode. reflexivity.
    + destruct (fourteen_bits_split d1 d2 H1 H2) as (Hlo & Hhi & Hraw).
      rewrite Hraw. reencode. unfold Midi.or_else, Midi.clamp14.
      replace (Z.max 0 (Z.min 16383
                 ((if (d1 + 128 * d2 - 8192 =? 0)%Z then 0
                   else d1 + 128 * d2 - 8192) + 8192)))
        with (d1 + 128 * d2)%Z
        by (destruct (Z.eqb_spec (d1 + 128 * d2 - 8192) 0); lia).
      rewrite Hlo, Hhi. reflexivity.
    + destruct (Z.ltb_spec 0 d2); [|lia]. reencode. reflexivity.
  - destruct Hn as [->| ->]; decode_status; reencode; reflexivity.
  - destruct Hs as [->|[->|[->| ->]]]; reflexivity.
Qed.

Lemma midi_bytes_round_trip_witness :
  Midi.to_data <$> Midi.to_msg [0xe5; 0x12; 0x34]%Z
    = Some [0xe5; 0x12; 0x34]%Z.
Proof.
  apply midi_bytes_round_trip. left.
  exists 0xe0%Z, 5%Z, 0x12%Z, 0x34%Z.
  split; [reflexivity|]. split; [auto 10|]. lia.
Defined.

(** A status byte below 0x80, or from 0xf0 to 0xf7, has none of the seven
    type nibbles. *)
Lemma unknown_nibble (s : Z) :
  (0 <= s < 0x80 \/ 0xf0 <= s < 0xf8)%Z ->
  forallb (fun nib => negb (Int32.and s 0xf0 =? nib)%Z)
    [0x90; 0x80; 0xa0; 0xb0; 0xc0; 0xd0; 0xe0]%Z = true.
Proof.
  intros [H|H].
  - apply (forall_range
             (fun z => forallb (fun nib => negb (Int32.and z 0xf0 =? nib)%Z)
                         [0x90; 0x80; 0xa0; 0xb0; 0xc0; 0xd0; 0xe0]%Z)
             0 128); [vm_compute; reflexivity | lia].
  - apply (forall_range
             (fun z => forallb (fun nib => negb (Int32.and z 0xf0 =? nib)%Z)
                         [0x90; 0x80; 0xa0; 0xb0; 0xc0; 0xd0; 0xe0]%Z)
             0xf0 8); [vm_compute; reflexivity | lia].
Qed.

(** X3: what a parse followed by an encode changes.  A note-on of velocity
    0 comes back as a note-off; a real-time byte other than clock, start,
    continue and stop comes back as no bytes at all; and bytes that start
    with a status below 0x80 or from 0xf0 to 0xf7 (system exclusive and
    system common) come back unchanged, whatever follows. *)
Theorem midi_bytes_lossy_cases :
  (forall c n : Z, (0 <= c <= 15)%Z -> (0 <= n <= 127)%Z ->
     Midi.to_data <$> Midi.to_msg [0x90 + c; n; 0]%Z
       = Some [0x80 + c; n; 0]%Z) /\
  (forall (s : Z) (rest : list Z),
     (0xf8 <= s)%Z -> s <> 0xf8%Z -> s <> 0xfa%Z -> s <> 0xfb%Z ->
     s <> 0xfc%Z ->
     Midi.to_data <$> Midi.to_msg (s :: rest) = Some []) /\
  (forall (s : Z) (rest : list Z),
     (0 <= s < 0x80 \/ 0xf0 <= s < 0xf8)%Z ->
     Midi.to_data <$> Midi.to_msg (s :: rest) = Some (s :: rest)).
Proof.
  split; [|split].
  - intros c n Hc Hn. decode_status. reencode. reflexivity.
  - intros s rest Hs H1 H2 H3 H4. unfold Midi.to_msg.
    destruct (Z.leb_spec 0xf8 s); [|lia].
    unfold Midi.CLOCK, Midi.START, Midi.STOP, Midi.CONTINUE.
    destruct (Z.eqb_spec s 0xf8); [contradiction|].
    destruct (Z.eqb_spec s 0xfa); [contradiction|].
    destruct (Z.eqb_spec s 0xfc); [contradiction|].
    destruct (Z.eqb_spec s 0xfb); [contradiction|].
    reflexivity.
  - intros s rest Hs. pose proof (unknown_nibble s Hs) as Hn.
    cbn [forallb] in Hn. rewrite !andb_true_iff, !negb_true_iff in Hn.
    destruct Hn as (E1 & E2 & E3 & E4 & E5 & E6 & E7 & _).
    unfold Midi.to_msg.
    destruct (Z.leb_spec 0xf8 s); [lia|].
    unfold Midi.NOTE_ON, Midi.NOTE_OFF, Midi.KEY_PRESSURE, Midi.CC,
      Midi.PROGRAM_CHANGE, Midi.CHANNEL_PRESSURE, Midi.PITCHBEND.
    rewrite E1, E2, E3, E4, E5, E6, E7. reflexivity.
Qed.

Lemma midi_bytes_lossy_cases_witness :
  Midi.to_data <$> Midi.to_msg [0x93; 64; 0]%Z = Some [0x83; 64; 0]%Z /\
  Midi.to_data <$> Midi.to_msg [0xfe]%Z = Some [] /\
  Midi.to_data <$> Midi.to_msg [0xf0; 1; 2; 0xf7]%Z
    = Some [0xf0; 1; 2; 0xf7]%Z.
Proof.
  destruct midi_bytes_lossy_cases as (Hoff & Hdrop & Hkeep).
  split; [apply (Hoff 3%Z 64%Z); lia|].
  split; [apply Hdrop; lia | apply Hkeep; lia].
Defined.

Lemma status_byte_range (nib x : Z) :
  (nib = 0x80 \/ nib = 0x90 \/ nib = 0xa0 \/ nib = 0xb0 \/ nib = 0xc0 \/
   nib = 0xd0 \/ nib = 0xe0)%Z ->
  (0x80 <= Int32.or nib (Int32.and x 0x0f) <= 0xef)%Z.
Proof.
  intros Hn. rewrite int32_and_15.
  rewrite status_or by (auto; Z.to_euclidean_division_equations; lia).
  Z.to_euclidean_division_equations. lia.
Qed.

Lemma data_byte_range (x : Z) : (0 <= Int32.and x 0x7f <= 127)%Z.
Proof. rewrite int32_and_127. Z.to_euclidean_division_equations. lia. Qed.

(** X4: whatever integers (or nothing) the fields of a message hold,
    [to_data] of a message of a known type is a valid MIDI message: one
    status byte in 0x80..0xff followed by at most two data bytes in
    0..127. *)
Theorem midi_to_data_is_valid (m : Midi.msg) :
  Midi.type m <> Midi.Other ->
  exists status rest,
    Midi.to_data m = status :: rest /\
    (0x80 <= status <= 0xff)%Z /\
    (length rest <= 2)%nat /\
    Forall (fun b => 0 <= b <= 127)%Z rest.
Proof.
  intros Ht. unfold Midi.to_data, Midi.and_opt.
  destruct (Midi.type m); try contradiction;
    eexists; eexists; (split; [reflexivity|]);
    (split; [first [ pose proof (status_byte_range 0x80
                                   (Midi.or_else (Midi.ch m) 1 - 1));
                     pose proof (status_byte_range 0x90
                                   (Midi.or_else (Midi.ch m) 1 - 1));
                     pose proof (status_byte_range 0xa0
                                   (Midi.or_else (Midi.ch m) 1 - 1));
                     pose proof (status_byte_range 0xb0
                                   (Midi.or_else (Midi.ch m) 1 - 1));
                     pose proof (status_byte_range 0xc0
                                   (Midi.or_else (Midi.ch m) 1 - 1));
                     pose proof (status_byte_range 0xd0
                                   (Midi.or_else (Midi.ch m) 1 - 1));
                     pose proof (status_byte_range 0xe0
                                   (Midi.or_else (Midi.ch m) 1 - 1));
                     unfold Midi.NOTE_ON, Midi.NOTE_OFF, Midi.CC,
                       Midi.PITCHBEND, Midi.CHANNEL_PRESSURE,
                       Midi.KEY_PRESSURE, Midi.PROGRAM_CHANGE,
                       Midi.CLOCK, Midi.START, Midi.STOP, Midi.CONTINUE;
                     intuition lia ]|]);
    (split; [simpl; lia|]);
    repeat constructor; apply data_byte_range.
Qed.

Lemma midi_to_data_is_valid_witness :
  exists status rest,
    Midi.to_data {| Midi.type := Midi.Cc; Midi.note := None;
                    Midi.vel := None; Midi.cc := Some 1000%Z;
                    Midi.val := Some (-1)%Z; Midi.ch := Some 77%Z;
                    Midi.data := None |} = status :: rest /\
    (0x80 <= status <= 0xff)%Z /\
    (length rest <= 2)%nat /\
    Forall (fun b => 0 <= b <= 127)%Z rest.
Proof.
  apply midi_to_data_is_valid. simpl. discriminate.
Defined.



(** ** The MIDI bus *)

Lemma update_heap (a : Z) (f : Midi.port -> Midi.port) (b : Midi.bus)
    (u : Z) :
  Midi.heap (Midi.update a f b) !! u =
    if decide (a = u) then f <$> Midi.heap b !! u else Midi.heap b !! u.
Proof.
  unfold Midi.update. destruct (Midi.heap b !! a) as [p|] eqn:E.
  - cbn [Midi.heap Midi.set_heap]. rewrite lookup_insert.
    case_decide; [subst; now rewrite E | reflexivity].
  - case_decide; [subst; now rewrite E | reflexivity].
Qed.

Lemma update_rest (a : Z) (f : Midi.port -> Midi.port) (b : Midi.bus) :
  Midi.ports (Midi.update a f b) = Midi.ports b /\
  Midi.next (Midi.update a f b) = Midi.next b /\
  Midi.removed (Midi.update a f b) = Midi.removed b /\
  Midi.remove (Midi.update a f b) = Midi.remove b.
Proof.
  unfold Midi.update. destruct (Midi.heap b !! a); repeat split.
Qed.

(** What [k] deliveries of [data] do to a port. *)
Definition received (k : nat) (data : list Z) (p : Midi.port) : Midi.port :=
  if Midi.event p
  then {| Midi.id := Midi.id p; Midi.event := Midi.event p;
          Midi.connected := Midi.connected p;
          Midi._targets := Midi._targets p;
          Midi.inbox := Midi.inbox p ++ replicate k data |}
  else p.

Lemma received_zero (data : list Z) (p : Midi.port) : received 0 data p = p.
Proof.
  unfold received. destruct p as [i e c t x]. simpl.
  destruct e; [|reflexivity]. now rewrite app_nil_r.
Qed.

Lemma received_succ (k : nat) (data : list Z) (p : Midi.port) :
  received 1 data (received k data p) = received (S k) data p.
Proof.
  unfold received. destruct p as [i e c t x]. simpl.
  destruct e; simpl; [|reflexivity].
  rewrite <- app_assoc. do 2 f_equal.
  change [data] with (replicate 1 data). rewrite <- replicate_add.
  now rewrite Nat.add_1_r.
Qed.

(** Delivering to a list of targets gives each port as many copies as it
    occurs in the list. *)
Lemma dispatch_heap (data : list Z) (ts : list Z) :
  forall (b : Midi.bus) (u : Z),
  Midi.heap (foldl (Midi.deliver data) b ts) !! u =
    received (length (filter (fun t => t = u) ts)) data
      <$> Midi.heap b !! u.
Proof.
  induction ts as [|t ts IH] using rev_ind; intros b u.
  - simpl. destruct (Midi.heap b !! u); simpl; [|reflexivity].
    now rewrite received_zero.
  - rewrite foldl_app. simpl.
    change (Midi.deliver data (foldl (Midi.deliver data) b ts) t)
      with (Midi.update t (received 1 data) (foldl (Midi.deliver data) b ts)).
    rewrite update_heap, IH, filter_app, length_app.
    case_decide as E.
    + subst. rewrite filter_cons_True by reflexivity. simpl.
      destruct (Midi.heap b !! u) as [p|]; simpl; [|reflexivity].
      now rewrite Nat.add_1_r, received_succ.
    + rewrite filter_cons_False by congruence. simpl.
      now rewrite Nat.add_0_r.
Qed.

Lemma filter_eq_nodup (ts : list Z) (u : Z) :
  NoDup ts ->
  length (filter (fun t => t = u) ts) = if decide (u ∈ ts) then 1%nat else 0%nat.
Proof.
  induction 1 as [|t ts Hnot Hnd IH].
  - case_decide as E; [inversion E | reflexivity].
  - destruct (decide (t = u)) as [->|Hne].
    + rewrite filter_cons_True by reflexivity. simpl. rewrite IH.
      rewrite decide_False by exact Hnot.
      rewrite decide_True by apply list_elem_of_here. reflexivity.
    + rewrite filter_cons_False by exact Hne. rewrite IH.
      destruct (decide (u ∈ ts)) as [Hin|Hout].
      * rewrite decide_True by (now apply list_elem_of_further). reflexivity.
      * rewrite decide_False; [reflexivity|].
        intros Hin. apply elem_of_cons in Hin as [->|Hin]; contradiction.
Qed.

(** X6: [send] calls the handler of every port the sender is wired to,
    once, with the data; a wired port without a handler and every port the
    sender is not wired to (the sender itself included) are left as they
    were. *)
Theorem send_reaches_wired_targets (b : Midi.bus) (a u : Z)
    (p q : Midi.port) (data : list Z) :
  Midi.heap b !! a = Some p ->
  Midi.heap b !! u = Some q ->
  NoDup (Midi._targets p) ->
  (u ∈ Midi._targets p -> Midi.event q = true ->
   Midi.heap (Midi.send a data b) !! u
     = Some {| Midi.id := Midi.id q; Midi.event := true;
               Midi.connected := Midi.connected q;
               Midi._targets := Midi._targets q;
               Midi.inbox := Midi.inbox q ++ [data] |}) /\
  (u ∈ Midi._targets p -> Midi.event q = false ->
   Midi.heap (Midi.send a data b) !! u = Some q) /\
  (u ∉ Midi._targets p -> Midi.heap (Midi.send a data b) !! u = Some q).
Proof.
  intros Ha Hu Hnd. unfold Midi.send, Midi._dispatch. rewrite Ha.
  rewrite dispatch_heap, Hu, (filter_eq_nodup _ _ Hnd). simpl.
  split; [|split].
  - intros Hin Hev. rewrite decide_True by exact Hin.
    unfold received. rewrite Hev. reflexivity.
  - intros Hin Hev. rewrite decide_True by exact Hin.
    unfold received. rewrite Hev. reflexivity.
  - intros Hout. rewrite decide_False by exact Hout.
    now rewrite received_zero.
Qed.

Lemma send_reaches_wired_targets_witness :
  let '(_, b) := Midi.connect 1 Midi.initial in
  let '(_, b) := Midi.connect 2 b in
  let b := Midi.set_event 1 true (Midi.wire 0 1 b) in
  Midi.inbox <$> Midi.heap (Midi.send 0 [0x90; 60; 100]%Z b) !! 1%Z
    = Some [[0x90; 60; 100]%Z] /\
  Midi.inbox <$> Midi.heap (Midi.send 0 [0x90; 60; 100]%Z b) !! 0%Z
    = Some [].
Proof.
  simpl.
  match goal with
  | |- context [Midi.send 0 ?d ?b] =>
      destruct (send_reaches_wired_targets b 0 1
                  {| Midi.id := 1; Midi.event := false;
                     Midi.connected := true; Midi._targets := [1%Z];
                     Midi.inbox := [] |}
                  {| Midi.id := 2; Midi.event := true;
                     Midi.connected := true; Midi._targets := [];
                     Midi.inbox := [] |} d) as (Hyes & _ & _);
        [reflexivity | reflexivity
        | repeat constructor; set_solver |];
      rewrite Hyes by (reflexivity || set_solver)
  end.
  split; reflexivity.
Defined.

Lemma filter_out_absent (ts : list Z) (t : Z) :
  t ∉ ts -> filter (fun u => u ≠ t) ts = ts.
Proof.
  induction ts as [|u ts IH]; intros Hout; [reflexivity|].
  rewrite filter_cons_True by (intros ->; apply Hout, list_elem_of_here).
  rewrite IH; [reflexivity|].
  intros Hin. apply Hout. now apply list_elem_of_further.
Qed.

Lemma filter_eq_after_filter_ne (ts : list Z) (t : Z) :
  filter (fun u => u = t) (filter (fun u => u ≠ t) ts) = [].
Proof.
  induction ts as [|u ts IH]; [reflexivity|].
  destruct (decide (u = t)) as [->|Hne].
  - now rewrite filter_cons_False by (intros H; now apply H).
  - rewrite filter_cons_True by exact Hne.
    now rewrite filter_cons_False by exact Hne.
Qed.

Lemma update_some (a : Z) (f : Midi.port -> Midi.port) (b : Midi.bus)
    (p : Midi.port) :
  Midi.heap b !! a = Some p ->
  Midi.update a f b = Midi.set_heap (<[a := f p]> (Midi.heap b)) b.
Proof. intros H. unfold Midi.update. now rewrite H. Qed.

Lemma update_twice (a : Z) (f g : Midi.port -> Midi.port) (b : Midi.bus)
    (p : Midi.port) :
  Midi.heap b !! a = Some p ->
  Midi.update a f (Midi.update a g b)
    = Midi.set_heap (<[a := f (g p)]> (Midi.heap b)) b.
Proof.
  intros H. rewrite (update_some a g b p H).
  rewrite (update_some a f _ (g p)) by apply lookup_insert_eq.
  destruct b. cbn. now rewrite insert_insert_eq.
Qed.

(** What [wire] and [unwire] do to the port object. *)
Definition wired (t : Z) (p : Midi.port) : Midi.port :=
  if negb (Midi.includes (Midi._targets p) t)
  then Midi.set_targets (Midi._targets p ++ [t]) p else p.

Definition unwired (t : Z) (p : Midi.port) : Midi.port :=
  Midi.set_targets (filter (fun u => u ≠ t) (Midi._targets p)) p.

Lemma wired_twice (t : Z) (p : Midi.port) : wired t (wired t p) = wired t p.
Proof.
  unfold wired, Midi.includes. destruct p as [i e c ts x]. simpl.
  destruct (decide (t ∈ ts)) as [Hin|Hout].
  - rewrite (bool_decide_eq_true_2 (t ∈ ts)) by exact Hin. simpl.
    now rewrite (bool_decide_eq_true_2 (t ∈ ts)) by exact Hin.
  - rewrite (bool_decide_eq_false_2 (t ∈ ts)) by exact Hout. simpl.
    now rewrite (bool_decide_eq_true_2 (t ∈ ts ++ [t])) by set_solver.
Qed.

Lemma unwired_wired (t : Z) (p : Midi.port) :
  t ∉ Midi._targets p -> unwired t (wired t p) = p.
Proof.
  unfold wired, unwired, Midi.includes. destruct p as [i e c ts x]. simpl.
  intros Hout. rewrite bool_decide_eq_false_2 by exact Hout. simpl.
  unfold Midi.set_targets. simpl.
  rewrite filter_app, filter_out_absent by exact Hout.
  rewrite filter_cons_False by (intros H; now apply H).
  now rewrite filter_nil, app_nil_r.
Qed.

(** X7: wiring is idempotent; unwiring a target that was just wired (and
    was not wired before) restores the bus; after [unwire] a [send] no
    longer reaches the target; and both operations keep every port wired to
    each of its targets at most once. *)
Theorem wire_and_unwire (b : Midi.bus) (a t : Z) (p : Midi.port) :
  Midi.heap b !! a = Some p ->
  Midi.wire a t (Midi.wire a t b) = Midi.wire a t b /\
  (t ∉ Midi._targets p -> Midi.unwire a t (Midi.wire a t b) = b) /\
  (forall data,
     Midi.heap (Midi.send a data (Midi.unwire a t b)) !! t
       = Midi.heap (Midi.unwire a t b) !! t) /\
  (wired_once b ->
   wired_once (Midi.wire a t b) /\ wired_once (Midi.unwire a t b)).
Proof.
  intros Ha.
  change (Midi.wire a t) with (Midi.update a (wired t)).
  change (Midi.unwire a t) with (Midi.update a (unwired t)).
  split; [|split; [|split]].
  - rewrite (update_twice _ _ _ _ _ Ha), wired_twice.
    now rewrite (update_some _ _ _ _ Ha).
  - intros Hout. rewrite (update_twice _ _ _ _ _ Ha), unwired_wired by exact Hout.
    destruct b as [h nx ps ad rm added removed]. simpl in *.
    unfold Midi.set_heap. simpl. now rewrite insert_id by exact Ha.
  - intros data. rewrite (update_some _ _ _ _ Ha).
    unfold Midi.send, Midi._dispatch.
    cbn [Midi.heap Midi.set_heap]. rewrite lookup_insert_eq.
    rewrite dispatch_heap. unfold unwired at 1. cbn [Midi._targets Midi.set_targets].
    rewrite filter_eq_after_filter_ne. cbn [length Midi.heap Midi.set_heap].
    destruct (<[a:=_]> (Midi.heap b) !! t) as [q|]; simpl; [|reflexivity].
    now rewrite received_zero.
  - intros Hw. rewrite !(update_some _ _ _ _ Ha).
    split; intros u q; cbn [Midi.heap Midi.set_heap]; rewrite lookup_insert;
      case_decide as E; try (apply (Hw u q)); intros [= <-].
    + specialize (Hw a _ Ha). unfold wired, Midi.includes.
      case_bool_decide as Hin; simpl; [exact Hw|].
      apply NoDup_app. split; [exact Hw|].
      split; [|apply NoDup_singleton].
      intros y Hy Hy'. apply list_elem_of_singleton in Hy'. now subst.
    + unfold unwired. simpl. apply NoDup_filter. exact (Hw a _ Ha).
Qed.

Lemma wire_and_unwire_witness :
  let b := snd (Midi.new_port 2 (snd (Midi.new_port 1 Midi.initial))) in
  Midi.wire 0 1 (Midi.wire 0 1 b) = Midi.wire 0 1 b /\
  Midi.unwire 0 1 (Midi.wire 0 1 b) = b.
Proof.
  simpl.
  match goal with
  | |- Midi.wire 0 1 (Midi.wire 0 1 ?b) = _ /\ _ =>
      destruct (wire_and_unwire b 0 1
                  {| Midi.id := 1; Midi.event := false;
                     Midi.connected := true; Midi._targets := [];
                     Midi.inbox := [] |} eq_refl) as (Hidem & Hinv & _)
  end.
  split; [exact Hidem | apply Hinv; set_solver].
Defined.

(** X8: [connect(n)] fails with the RangeError, changing nothing, unless
    [1 <= n <= 16]; otherwise it returns a port, a second [connect(n)]
    returns the same port and changes nothing more, and no other entry of
    the table and no other object is touched.  When entry [n] was empty the
    port is a new object with id [n], no handler and no targets. *)
Theorem connect_port (n : Z) (b : Midi.bus) :
  (~ (1 <= n <= 16)%Z -> Midi.connect n b = (Midi.RangeError, b)) /\
  ((1 <= n <= 16)%Z -> length (Midi.ports b) = 16%nat ->
   exists a b',
     Midi.connect n b = (Midi.Port a, b') /\
     Midi.connect n b' = (Midi.Port a, b') /\
     Midi.ports b' !! Z.to_nat (n - 1) = Some (Some a) /\
     (forall i, i <> Z.to_nat (n - 1) ->
        Midi.ports b' !! i = Midi.ports b !! i) /\
     (forall u, u <> a -> Midi.heap b' !! u = Midi.heap b !! u) /\
     (Midi.ports b !! Z.to_nat (n - 1) = Some None ->
      Midi.heap b' !! a
        = Some {| Midi.id := n; Midi.event := false;
                  Midi.connected := true; Midi._targets := [];
                  Midi.inbox := [] |})).
Proof.
  split.
  - intros Hn. unfold Midi.connect, Midi.MAX_PORTS.
    destruct (Z.ltb_spec (n - 1) 0); [reflexivity|].
    destruct (Z.leb_spec 16 (n - 1)); [reflexivity | lia].
  - intros Hn Hlen.
    assert (Hguard : ((n - 1 <? 0)%Z || (Midi.MAX_PORTS <=? n - 1)%Z) = false).
    { unfold Midi.MAX_PORTS. apply orb_false_iff.
      split; [apply Z.ltb_ge | apply Z.leb_gt]; lia. }
    destruct (lookup_lt_is_Some_2 (Midi.ports b) (Z.to_nat (n - 1)))
      as [entry Hentry]; [lia|].
    unfold Midi.connect at 1. rewrite Hguard, Hentry. simpl mjoin.
    destruct entry as [a|].
    + exists a, b. split; [reflexivity|].
      split; [unfold Midi.connect; now rewrite Hguard, Hentry|].
      split; [exact Hentry|]. split; [reflexivity|].
      split; [reflexivity | discriminate].
    + cbn [Midi.new_port]. eexists. eexists. split; [reflexivity|].
      split; [|split; [|split; [|split]]].
      * unfold Midi.connect. rewrite Hguard. cbn [Midi.ports].
        rewrite list_lookup_insert_eq by lia. reflexivity.
      * cbn [Midi.ports]. apply list_lookup_insert_eq. lia.
      * intros i Hi. cbn [Midi.ports].
        apply list_lookup_insert_ne. congruence.
      * intros u Hu. cbn [Midi.heap]. apply lookup_insert_ne. congruence.
      * intros _. cbn [Midi.heap]. apply lookup_insert_eq.
Qed.

Lemma connect_port_witness :
  Midi.connect 17 Midi.initial = (Midi.RangeError, Midi.initial) /\
  exists a b',
    Midi.connect 3 Midi.initial = (Midi.Port a, b') /\
    Midi.connect 3 b' = (Midi.Port a, b').
Proof.
  destruct (connect_port 17 Midi.initial) as [Hbad _].
  destruct (connect_port 3 Midi.initial) as [_ Hgood].
  split; [apply Hbad; lia|].
  destruct Hgood as (a & b' & H1 & H2 & _); [lia | reflexivity |].
  exists a, b'. split; assumption.
Defined.

(** What [cleanup] does to a port object that is in the table. *)
Definition cleared (p : Midi.port) : Midi.port :=
  {| Midi.id := Midi.id p; Midi.event := false;
     Midi.connected := Midi.connected p; Midi._targets := [];
     Midi.inbox := Midi.inbox p |}.

Lemma cleanup_fold (n : nat) (b : Midi.bus) :
  let b' := foldl Midi.cleanup_entry b (seq 0 n) in
  length (Midi.ports b') = length (Midi.ports b) /\
  (forall i, Midi.ports b' !! i =
     if decide (i < n)%nat then (fun _ => None) <$> Midi.ports b !! i
     else Midi.ports b !! i) /\
  (forall a, Midi.heap b' !! a =
     if decide (Some a ∈ take n (Midi.ports b))
     then cleared <$> Midi.heap b !! a else Midi.heap b !! a).
Proof.
  induction n as [|n IH].
  - cbn [seq foldl]. split; [reflexivity|]. split.
    + intros i. destruct (decide (i < 0)%nat); [lia | reflexivity].
    + intros a. rewrite take_0.
      destruct (decide (Some a ∈ [])) as [E|E]; [inversion E | reflexivity].
  - rewrite seq_S, foldl_app. cbn [foldl Nat.add].
    destruct IH as (Hlen & Hports & Hheap).
    set (bn := foldl Midi.cleanup_entry b (seq 0 n)) in *.
    assert (Hentry : Midi.ports bn !! n = Midi.ports b !! n).
    { rewrite Hports. case_decide; [lia | reflexivity]. }
    unfold Midi.cleanup_entry. rewrite Hentry.
    destruct (Midi.ports b !! n) as [[a|]|] eqn:En; simpl mjoin; cbv iota beta.
    + destruct (update_rest a cleared bn) as (Hp & _).
      cbn [Midi.ports Midi.heap].
      change (fun p : Midi.port =>
                {| Midi.id := Midi.id p; Midi.event := false;
                   Midi.connected := Midi.connected p; Midi._targets := [];
                   Midi.inbox := Midi.inbox p |}) with cleared.
      rewrite Hp. split; [now rewrite length_insert|]. split.
      * intros i. rewrite list_lookup_insert, Hports.
        apply lookup_lt_Some in En as Hlt. rewrite Hlen.
        destruct (decide (n = i)) as [->|Hne].
        -- rewrite decide_True by lia. rewrite decide_True by lia.
           now rewrite En.
        -- rewrite decide_False by (intros [? _]; congruence).
           repeat case_decide; try lia; reflexivity.
      * intros u. rewrite update_heap, Hheap.
        rewrite (take_S_r _ _ _ En).
        destruct (decide (a = u)) as [->|Hne].
        -- rewrite (decide_True (P := Some u ∈ _ ++ _)) by set_solver.
           case_decide; [|reflexivity].
           destruct (Midi.heap b !! u); reflexivity.
        -- case_decide as E1; case_decide as E2; try reflexivity.
           ++ exfalso. apply E2. set_solver.
           ++ exfalso. apply elem_of_app in E2 as [E2|E2]; [contradiction|].
              apply list_elem_of_singleton in E2. congruence.
    + split; [exact Hlen|]. split.
      * intros i. rewrite Hports.
        destruct (decide (i = n)) as [->|Hne].
        -- rewrite decide_False by lia. rewrite decide_True by lia.
           now rewrite En.
        -- repeat case_decide; try lia; reflexivity.
      * intros u. rewrite Hheap, (take_S_r _ _ _ En).
        case_decide as E1; case_decide as E2; try reflexivity.
        -- exfalso. apply E2. set_solver.
        -- exfalso. apply elem_of_app in E2 as [E2|E2]; [contradiction|].
           apply list_elem_of_singleton in E2. discriminate.
    + split; [exact Hlen|]. apply lookup_ge_None in En. split.
      * intros i. rewrite Hports.
        repeat case_decide; try lia; try reflexivity.
        rewrite lookup_ge_None_2 by lia. reflexivity.
      * intros u. rewrite Hheap.
        rewrite !take_ge by lia. reflexivity.
Qed.

(** X9: [cleanup] empties the whole table; every port that was in the
    table loses its handler and its targets and keeps its id; every other
    object is untouched; afterwards [connect] makes new ports. *)
Theorem cleanup_clears_table (b : Midi.bus) :
  length (Midi.ports b) = 16%nat ->
  Midi.ports (Midi.cleanup b) = replicate 16 None /\
  (forall a p, Midi.heap b !! a = Some p ->
     (Some a ∈ Midi.ports b -> Midi.heap (Midi.cleanup b) !! a = Some (cleared p)) /\
     (Some a ∉ Midi.ports b -> Midi.heap (Midi.cleanup b) !! a = Some p)) /\
  (forall n, (1 <= n <= 16)%Z ->
     fst (Midi.connect n (Midi.cleanup b))
       = Midi.Port (Midi.next (Midi.cleanup b))).
Proof.
  intros Hlen. unfold Midi.cleanup. change (Z.to_nat Midi.MAX_PORTS) with 16%nat.
  destruct (cleanup_fold 16 b) as (Hl & Hports & Hheap).
  set (b' := foldl Midi.cleanup_entry b (seq 0 16)) in *.
  assert (Htable : Midi.ports b' = replicate 16 None).
  { apply list_eq. intros i. rewrite Hports.
    destruct (decide (i < 16)%nat) as [Hi|Hi].
    - rewrite lookup_replicate_2 by exact Hi.
      destruct (lookup_lt_is_Some_2 (Midi.ports b) i) as [x ->]; [lia|].
      reflexivity.
    - rewrite lookup_ge_None_2 by lia.
      symmetry. apply lookup_replicate_None. lia. }
  split; [exact Htable|]. split.
  - intros a p Ha. rewrite Hheap, Ha, take_ge by lia.
    split; intros Hin; [now rewrite decide_True | now rewrite decide_False].
  - intros n Hn. unfold Midi.connect, Midi.MAX_PORTS.
    destruct (Z.ltb_spec (n - 1) 0); [lia|].
    destruct (Z.leb_spec 16 (n - 1)); [lia|]. simpl orb. cbv iota.
    rewrite Htable, lookup_replicate_2 by lia. reflexivity.
Qed.

Lemma cleanup_clears_table_witness :
  let b := Midi.set_event 0 true (snd (Midi.connect 1 Midi.initial)) in
  Midi.ports (Midi.cleanup b) = replicate 16 None /\
  Midi.event <$> Midi.heap (Midi.cleanup b) !! 0%Z = Some false.
Proof.
  intros b.
  assert (Hlen : length (Midi.ports b) = 16%nat) by (vm_compute; reflexivity).
  assert (Hp : Midi.heap b !! 0%Z
               = Some {| Midi.id := 1; Midi.event := true;
                         Midi.connected := true; Midi._targets := [];
                         Midi.inbox := [] |}) by (vm_compute; reflexivity).
  assert (Hports : Midi.ports b = Some 0%Z :: replicate 15 None)
    by (vm_compute; reflexivity).
  destruct (cleanup_clears_table b Hlen) as (Htable & Hheap & _).
  destruct (Hheap 0%Z _ Hp) as [Hin _].
  split; [exact Htable|].
  rewrite Hin; [reflexivity|]. rewrite Hports. apply list_elem_of_here.
Defined.

(** ** More on the kernel *)

Section KernelMore.

Import Processor.

Variable sampleRate : Q.

Local Open Scope Q_scope.

Local Abbreviation frame := (Processor.frame sampleRate).
Local Abbreviation frames := (Processor.frames sampleRate).

(** The fields no step of a frame assigns. *)
Definition same_settings (v v' : voice) : Prop :=
  enabled v' = enabled v /\ buffer v' = buffer v /\ rate v' = rate v /\
  pan v' = pan v /\ position v' = position v /\ loop v' = loop v /\
  loop_start v' = loop_start v /\ loop_end v' = loop_end v /\
  fade_time v' = fade_time v /\ level_slew_time v' = level_slew_time v /\
  level_target v' = level_target v /\ rec v' = rec v /\
  rec_level v' = rec_level v /\ pre_level v' = pre_level v /\
  phase_quant v' = phase_quant v.

Lemma same_settings_refl (v : voice) : same_settings v v.
Proof. unfold same_settings. repeat split. Qed.

Lemma same_settings_trans (v1 v2 v3 : voice) :
  same_settings v1 v2 -> same_settings v2 v3 -> same_settings v1 v3.
Proof.
  unfold same_settings. intros H1 H2.
  repeat match goal with H : _ /\ _ |- _ => destruct H end.
  repeat split; etransitivity; eassumption.
Qed.

Lemma slew_settings (r : Q) (v : voice) : same_settings v (slew r v).
Proof.
  unfold slew, same_settings.
  destruct (Js.neq _ _); [destruct (Js.lt _ _)|]; repeat split.
Qed.

Lemma boundary_settings (c : locals) (v : voice) :
  same_settings v (boundary c v).
Proof.
  unfold boundary, same_settings.
  destruct (loop v && _);
    [destruct (_ && _); [|destruct (_ && _)] | destruct (_ || _)];
    repeat split.
Qed.

Lemma report_settings (polling : bool) (vi : Z) (v : voice) :
  same_settings v (fst (report sampleRate polling vi v)).
Proof.
  unfold report, same_settings.
  destruct (polling && _); [destruct (Js.ge _ _)|]; repeat split.
Qed.

(** A frame either fails (no buffer under a head that is inside the buffer
    range) or leaves the settings of the voice alone. *)
Lemma frame_settings (polling : bool) (vi : Z) (c : locals)
    (inMono : option (list Q)) (i : nat) (k k' : kernel) :
  frame polling vi c inMono i k = Some k' ->
  same_settings (k_voice k) (k_voice k') /\
  (is_Some (k_buf k) -> is_Some (k_buf k')) /\
  length (k_outL k') = length (k_outL k) /\
  length (k_outR k') = length (k_outR k).
Proof.
  unfold Processor.frame. cbv zeta.
  pose proof (slew_settings (slewRate c) (k_voice k)) as Hs.
  set (v1 := slew (slewRate c) (k_voice k)) in *.
  destruct (playing v1); simpl negb; cbv iota.
  - destruct (read (k_buf k) (phase v1)) as [s|]; simpl; [|discriminate].
    destruct (record inMono i v1 (phase v1) (k_buf k)) as [buf|] eqn:Erec;
      simpl; [|discriminate].
    set (v2 := boundary c (set_phase (phase v1 + rate v1) v1)).
    pose proof (report_settings polling vi v2) as Hr.
    destruct (report sampleRate polling vi v2) as [v3 evs]. simpl in Hr.
    intros [= <-]. cbn [k_voice k_buf k_outL k_outR].
    split; [|split; [|split]].
    + eapply same_settings_trans; [exact Hs|].
      eapply same_settings_trans; [|exact Hr].
      eapply same_settings_trans; [|apply boundary_settings].
      unfold same_settings. repeat split.
    + intros [b Hb]. rewrite Hb in Erec. unfold record in Erec.
      destruct (rec v1); [|injection Erec as <-; eauto].
      destruct (_ && _); simpl in Erec; injection Erec as <-; eauto.
    + unfold add_at. apply length_insert.
    + unfold add_at. apply length_insert.
  - intros [= <-]. cbn [k_voice k_buf k_outL k_outR].
    split; [exact Hs|]. split; [auto|]. split; reflexivity.
Qed.

(** With a buffer at hand a frame never fails. *)
Lemma frame_total (polling : bool) (vi : Z) (c : locals)
    (inMono : option (list Q)) (i : nat) (k : kernel) :
  is_Some (k_buf k) -> is_Some (frame polling vi c inMono i k).
Proof.
  intros [b Hb].
  destruct (playing (k_voice k)) eqn:Hplay.
  - destruct (frame_playing sampleRate polling vi c inMono i k b Hplay Hb)
      as (s & _ & ->). eauto.
  - rewrite (frame_not_playing sampleRate polling vi c inMono i k Hplay). eauto.
Qed.

Lemma frames_total (polling : bool) (vi : Z) (c : locals)
    (inMono : option (list Q)) (n : nat) :
  forall (i : nat) (k : kernel),
  is_Some (k_buf k) ->
  exists k',
    frames polling vi c inMono n i k = Some k' /\
    same_settings (k_voice k) (k_voice k') /\
    is_Some (k_buf k') /\
    length (k_outL k') = length (k_outL k) /\
    length (k_outR k') = length (k_outR k).
Proof.
  induction n as [|n IH]; intros i k Hb.
  - exists k. split; [reflexivity|]. split; [apply same_settings_refl|].
    split; [exact Hb|]. split; reflexivity.
  - destruct (frame_total polling vi c inMono i k Hb) as [k1 Hk1].
    destruct (frame_settings _ _ _ _ _ _ _ Hk1) as (Hs1 & Hb1 & HL1 & HR1).
    destruct (IH (S i) k1 (Hb1 Hb)) as (k' & Hrun & Hs & Hb' & HL & HR).
    exists k'. split; [simpl; rewrite Hk1; exact Hrun|].
    split; [eapply same_settings_trans; eassumption|].
    split; [exact Hb'|]. split; congruence.
Qed.

End KernelMore.

(** ** Whole blocks *)

Section Blocks.

Import Processor.

Variable sampleRate : Q.
Variables Math_cos Math_sin : Q -> Q.
Variable Math_PI : Q.

Local Open Scope Q_scope.

Local Abbreviation process_voice :=
  (Processor.process_voice sampleRate Math_cos Math_sin Math_PI).
Local Abbreviation voices_from :=
  (Processor.voices_from sampleRate Math_cos Math_sin Math_PI).
Local Abbreviation process :=
  (Processor.process sampleRate Math_cos Math_sin Math_PI).

Lemma at_index_in_range {A} (l : list A) (i : Z) :
  (0 <= i < Z.of_nat (length l))%Z -> is_Some (at_index l i).
Proof.
  intros Hi. unfold at_index.
  destruct (Z.ltb_spec i 0); [lia|].
  apply lookup_lt_is_Some_2. lia.
Qed.

Lemma at_index_out_of_range {A} (l : list A) (i : Z) :
  ~ (0 <= i < Z.of_nat (length l))%Z -> at_index l i = None.
Proof.
  intros Hi. unfold at_index.
  destruct (Z.ltb_spec i 0); [reflexivity|].
  apply lookup_ge_None_2. lia.
Qed.

(** The state [process] threads through the voice loop keeps its shape. *)
Definition run_ok (blockSize : nat) (polling : bool) (r : run) : Prop :=
  well_shaped (r_proc r) /\ buffers_selected (r_proc r) /\
  length (r_outL r) = blockSize /\ length (r_outR r) = blockSize /\
  phasePolling (r_proc r) = polling.

Lemma process_voice_ok (inMono : option (list Q)) (blockSize : nat)
    (polling : bool) (vi : Z) (r : run) :
  run_ok blockSize polling r -> (0 <= vi < 6)%Z ->
  exists r', process_voice inMono blockSize vi r = Some r' /\
             run_ok blockSize polling r'.
Proof.
  intros ((Hbufs & Hvoices) & Hsel & HL & HR & Hpoll) Hvi.
  destruct (at_index_in_range (voices (r_proc r)) vi) as [v Hv]; [lia|].
  unfold Processor.process_voice. rewrite Hv. simpl.
  destruct (enabled v) eqn:Hen; simpl.
  - assert (Hbv : buffer v = 0%Z \/ buffer v = 1%Z).
    { unfold buffers_selected in Hsel. rewrite Forall_lookup in Hsel.
      apply (Hsel (Z.to_nat vi)). now apply at_index_lookup. }
    destruct (at_index_in_range (buffers (r_proc r)) (buffer v)) as [b Hb];
      [lia|].
    rewrite Hb.
    destruct (frames_total sampleRate (phasePolling (r_proc r)) vi
                (locals_of sampleRate Math_cos Math_sin Math_PI v) inMono
                blockSize 0
                {| k_voice := v; k_buf := Some b; k_outL := r_outL r;
                   k_outR := r_outR r; k_posted := posted (r_proc r) |})
      as (k' & Hrun & Hs & [b' Hb'] & HL' & HR'); [simpl; eauto|].
    rewrite Hrun. simpl. rewrite Hb'.
    eexists. split; [reflexivity|]. unfold run_ok, well_shaped, buffers_selected.
    cbn [r_proc r_outL r_outR buffers voices phasePolling].
    rewrite !length_insert. simpl in HL', HR'.
    repeat split; try assumption; try congruence.
    apply Forall_insert; [exact Hsel|].
    destruct Hs as (_ & Hbuf & _). simpl in Hbuf. now rewrite Hbuf.
  - exists r. split; [reflexivity|]. repeat split; assumption.
Qed.

Lemma voices_from_ok (inMono : option (list Q)) (blockSize : nat)
    (polling : bool) (n : nat) :
  forall (vi : Z) (r : run),
  run_ok blockSize polling r -> (0 <= vi)%Z -> (vi + Z.of_nat n <= 6)%Z ->
  exists r', voices_from inMono blockSize n vi r = Some r' /\
             run_ok blockSize polling r'.
Proof.
  induction n as [|n IH]; intros vi r Hok H0 H6.
  - exists r. split; [reflexivity | exact Hok].
  - destruct (process_voice_ok inMono blockSize polling vi r Hok) as (r1 & H1 & Hok1);
      [lia|].
    destruct (IH (vi + 1)%Z r1 Hok1) as (r' & Hr' & Hok'); [lia | lia |].
    exists r'. split; [simpl; rewrite H1; exact Hr' | exact Hok'].
Qed.

(** X10: on a processor with its two buffers and six voices, each voice
    selecting buffer 0 or 1, [process] never throws, whatever the voices'
    phases, rates and loop points are; it returns two output channels of
    the block's length and leaves the processor in the same shape, with the
    polling switch as it was. *)
Theorem process_never_faults (inMono : option (list Q)) (blockSize : nat)
    (p : processor) :
  well_shaped p -> buffers_selected p ->
  exists r,
    process inMono blockSize p = Some r /\
    well_shaped (r_proc r) /\ buffers_selected (r_proc r) /\
    length (r_outL r) = blockSize /\ length (r_outR r) = blockSize /\
    phasePolling (r_proc r) = phasePolling p.
Proof.
  intros Hshape Hsel. unfold Processor.process.
  apply (voices_from_ok inMono blockSize (phasePolling p)
           (Z.to_nat NUM_VOICES) 0).
  - unfold run_ok. cbn [r_proc r_outL r_outR].
    rewrite !length_replicate. repeat split; try assumption; apply Hshape.
  - lia.
  - unfold NUM_VOICES. lia.
Qed.

(** X11: an enabled, playing voice whose [buffer] field selects no buffer
    (any index other than 0 and 1) and whose head is inside the buffer
    range makes the block throw as soon as a frame is processed. *)
Theorem missing_buffer_faults (inMono : option (list Q)) (blockSize : nat)
    (vi : Z) (r : run) (v : voice) :
  at_index (voices (r_proc r)) vi = Some v ->
  enabled v = true -> playing v = true ->
  at_index (buffers (r_proc r)) (buffer v) = None ->
  (0 <= Js.floor (phase v) < Pcm.BUF_FRAMES)%Z ->
  (0 < blockSize)%nat ->
  process_voice inMono blockSize vi r = None.
Proof.
  intros Hv Hen Hplay Hbuf Hrange Hn.
  unfold Processor.process_voice. rewrite Hv. simpl. rewrite Hen, Hbuf. simpl.
  destruct blockSize as [|n]; [lia|]. cbn [Processor.frames].
  unfold Processor.frame at 1. cbv zeta. cbn [k_voice k_buf].
  destruct (slew_other_fields (slewRate (locals_of sampleRate Math_cos
              Math_sin Math_PI v)) v) as (-> & -> & _).
  rewrite Hplay. simpl negb. cbv iota.
  assert (Hread : read None (phase v) = None).
  { unfold read. destruct Hrange as [H0 H1].
    destruct (Z.leb_spec 0 (Js.floor (phase v))); [|lia].
    destruct (Z.ltb_spec (Js.floor (phase v)) Pcm.BUF_FRAMES); [|lia].
    destruct (_ <? _)%Z; reflexivity. }
  rewrite Hread. reflexivity.
Qed.

(** X12: when no voice is enabled, [process] changes nothing in the
    processor and both output channels are silent. *)
Theorem disabled_voices_are_silent (inMono : option (list Q))
    (blockSize : nat) (p : processor) :
  length (voices p) = 6%nat ->
  Forall (fun v => enabled v = false) (voices p) ->
  process inMono blockSize p
    = Some {| r_proc := p; r_outL := replicate blockSize 0;
              r_outR := replicate blockSize 0 |}.
Proof.
  intros Hlen Hoff. unfold Processor.process.
  assert (Hstep : forall vi r, r_proc r = p -> (0 <= vi < 6)%Z ->
                    process_voice inMono blockSize vi r = Some r).
  { intros vi r Hr Hvi. unfold Processor.process_voice. rewrite Hr.
    destruct (at_index_in_range (voices p) vi) as [v Hv]; [lia|].
    rewrite Hv. simpl. rewrite Forall_lookup in Hoff.
    rewrite (Hoff (Z.to_nat vi) v) by now apply at_index_lookup.
    reflexivity. }
  change (Z.to_nat NUM_VOICES) with 6%nat. cbn [Processor.voices_from].
  repeat (rewrite Hstep by (reflexivity || lia); simpl).
  reflexivity.
Qed.

End Blocks.

Lemma process_never_faults_witness :
  exists r,
    Processor.process 48000 Examples.cos_ Examples.sin_ Examples.pi_
      (Some [1; 1]%Q) 2
      (Processor.set_voices
         (<[0%nat := Examples.recording_voice]>
            (Processor.voices Processor.construct))
         Processor.construct) = Some r /\
    length (Processor.r_outL r) = 2%nat.
Proof.
  destruct (process_never_faults 48000 Examples.cos_ Examples.sin_
              Examples.pi_ (Some [1; 1]%Q) 2
              (Processor.set_voices
                 (<[0%nat := Examples.recording_voice]>
                    (Processor.voices Processor.construct))
                 Processor.construct))
    as (r & Hrun & _ & _ & HL & _).
  - split; reflexivity.
  - unfold buffers_selected. simpl.
    repeat (apply List.Forall_cons;
            [first [left; reflexivity | right; reflexivity]|]).
    apply List.Forall_nil.
  - exists r. split; assumption.
Defined.

Lemma missing_buffer_faults_witness :
  Processor.process_voice 48000 Examples.cos_ Examples.sin_ Examples.pi_
    None 1 0
    {| Processor.r_proc :=
         Processor.set_voices
           (<[0%nat := Processor.set_buffer 2 Examples.playing_voice]>
              (Processor.voices Processor.construct))
           Processor.construct;
       Processor.r_outL := [0%Q]; Processor.r_outR := [0%Q] |} = None.
Proof.
  apply (missing_buffer_faults 48000 Examples.cos_ Examples.sin_ Examples.pi_
           None 1 0 _ (Processor.set_buffer 2 Examples.playing_voice)).
  - reflexivity.
  - reflexivity.
  - reflexivity.
  - reflexivity.
  - vm_compute. split; [discriminate | reflexivity].
  - lia.
Defined.

Lemma disabled_voices_are_silent_witness :
  Processor.process 48000 Examples.cos_ Examples.sin_ Examples.pi_
    (Some [1; 1]%Q) 2 Processor.construct
  = Some {| Processor.r_proc := Processor.construct;
            Processor.r_outL := [0%Q; 0%Q];
            Processor.r_outR := [0%Q; 0%Q] |}.
Proof.
  apply (disabled_voices_are_silent 48000 Examples.cos_ Examples.sin_
           Examples.pi_ (Some [1; 1]%Q) 2 Processor.construct).
  - reflexivity.
  - simpl. repeat (apply List.Forall_cons; [reflexivity|]).
    apply List.Forall_nil.
Defined.

(** ** More on the kernel: stopped voices, one-shot playback, reverse
    loops, fades, slews and phase reports *)

Section Voices.

Import Processor.

Variable sampleRate : Q.

Local Open Scope Q_scope.

Local Abbreviation frame := (Processor.frame sampleRate).
Local Abbreviation frames := (Processor.frames sampleRate).

(** X13: frames of a voice that is not playing change nothing but its
    level: the head, the buffer, both outputs and the port are as before,
    and the voice is still not playing. *)
Theorem idle_voice_contributes_nothing (polling : bool) (vi : Z)
    (c : locals) (inMono : option (list Q)) (n : nat) :
  forall (i : nat) (k : kernel),
  playing (k_voice k) = false ->
  exists k',
    frames polling vi c inMono n i k = Some k' /\
    k_buf k' = k_buf k /\ k_outL k' = k_outL k /\ k_outR k' = k_outR k /\
    k_posted k' = k_posted k /\
    phase (k_voice k') = phase (k_voice k) /\
    phase_accum (k_voice k') = phase_accum (k_voice k) /\
    playing (k_voice k') = false.
Proof.
  induction n as [|n IH]; intros i k Hplay.
  - exists k. repeat split; try reflexivity. exact Hplay.
  - pose proof (frame_not_playing sampleRate polling vi c inMono i k Hplay)
      as Hframe.
    destruct (slew_other_fields (slewRate c) (k_voice k))
      as (Hp & Hph & _ & _ & _ & _ & _ & _ & Hacc).
    destruct (IH (S i)
                {| k_voice := slew (slewRate c) (k_voice k);
                   k_buf := k_buf k; k_outL := k_outL k;
                   k_outR := k_outR k; k_posted := k_posted k |})
      as (k' & Hrun & Hb & HL & HR & Hpo & Hphase & Haccum & Hstill).
    { cbn [k_voice]. now rewrite Hp. }
    cbn [k_voice k_buf k_outL k_outR k_posted] in *.
    exists k'. split; [simpl; rewrite Hframe; exact Hrun|].
    repeat split; try assumption; congruence.
Qed.

(** The one-shot policy keeps a playing head inside the buffer. *)
Definition head_inside (v : voice) : Prop :=
  playing v = true -> 0 <= phase v < Js.num Pcm.BUF_FRAMES.

Lemma frame_keeps_head_inside (polling : bool) (vi : Z) (c : locals)
    (inMono : option (list Q)) (i : nat) (k k' : kernel) :
  loop (k_voice k) && Js.gt (loopLen c) 0 = false ->
  head_inside (k_voice k) ->
  frame polling vi c inMono i k = Some k' ->
  head_inside (k_voice k').
Proof.
  intros Hone Hin Hframe.
  destruct (playing (k_voice k)) eqn:Hplay.
  - unfold Processor.frame in Hframe. cbv zeta in Hframe.
    destruct (slew_other_fields (slewRate c) (k_voice k))
      as (Hp & Hph & Hr & Hl & _).
    set (v1 := slew (slewRate c) (k_voice k)) in *.
    rewrite Hp, Hplay in Hframe. simpl negb in Hframe. cbv iota in Hframe.
    destruct (read (k_buf k) (phase v1)); simpl in Hframe; [|discriminate].
    destruct (record _ _ _ _ _); simpl in Hframe; [|discriminate].
    set (v3 := set_phase (phase v1 + rate v1) v1) in *.
    destruct (report_other_fields sampleRate polling vi (boundary c v3))
      as (Hp4 & Hph4 & _).
    destruct (report sampleRate polling vi (boundary c v3)) as [v4 evs].
    simpl in Hp4, Hph4. injection Hframe as <-. cbn [k_voice].
    unfold head_inside. rewrite Hp4, Hph4.
    destruct (boundary_one_shot c v3) as [-> ->].
    { change (loop v3) with (loop v1). now rewrite Hl. }
    js_case (Js.ge (phase v3) (Js.num Pcm.BUF_FRAMES));
      [intros H; simpl in H; discriminate H|].
    js_case (Js.lt (phase v3) 0);
      [intros H; simpl in H; discriminate H|].
    intros _. split; assumption.
  - rewrite (frame_not_playing sampleRate polling vi c inMono i k Hplay)
      in Hframe.
    injection Hframe as <-. cbn [k_voice]. unfold head_inside.
    destruct (slew_other_fields (slewRate c) (k_voice k)) as (-> & _).
    rewrite Hplay. discriminate.
Qed.

(** X14: a voice without an effective loop (loop off, or a loop length that
    is not positive) never plays from outside the buffer: if a playing head
    starts inside [0, BUF_FRAMES) it is inside at the start of every later
    frame in which the voice is still playing, whatever the rate is. *)
Theorem one_shot_head_stays_inside (polling : bool) (vi : Z) (c : locals)
    (inMono : option (list Q)) (n : nat) :
  forall (i : nat) (k k' : kernel),
  loop (k_voice k) && Js.gt (loopLen c) 0 = false ->
  head_inside (k_voice k) ->
  frames polling vi c inMono n i k = Some k' ->
  head_inside (k_voice k').
Proof.
  induction n as [|n IH]; intros i k k' Hone Hin Hrun.
  - injection Hrun as <-. exact Hin.
  - simpl in Hrun.
    destruct (frame polling vi c inMono i k) as [k1|] eqn:Hframe;
      [|discriminate].
    simpl in Hrun. apply (IH (S i) k1 k'); [| |exact Hrun].
    + destruct (frame_settings sampleRate _ _ _ _ _ _ _ Hframe)
        as ((_ & _ & _ & _ & _ & Hl & _) & _).
      now rewrite Hl.
    + eapply frame_keeps_head_inside; eassumption.
Qed.

End Voices.

Lemma idle_voice_contributes_nothing_witness :
  exists k',
    Processor.frames 48000 true 0
      (Examples.locals_at_48k (Processor.new_voice 0)) (Some [1; 1]%Q) 2 0
      (Examples.kernel_of (Processor.new_voice 0)) = Some k' /\
    Processor.k_outL k' = [0%Q; 0%Q] /\
    Processor.phase (Processor.k_voice k') = 0%Q.
Proof.
  destruct (idle_voice_contributes_nothing 48000 true 0
              (Examples.locals_at_48k (Processor.new_voice 0))
              (Some [1; 1]%Q) 2 0
              (Examples.kernel_of (Processor.new_voice 0)) eq_refl)
    as (k' & Hrun & _ & HL & _ & _ & Hphase & _).
  exists k'. split; [exact Hrun|]. split; [exact HL | exact Hphase].
Defined.

Lemma one_shot_head_stays_inside_witness :
  exists k',
    Processor.frames 48000 false 0
      (Examples.locals_at_48k Examples.fast_voice) None 5 0
      (Examples.kernel_of Examples.fast_voice) = Some k' /\
    head_inside k'.(Processor.k_voice).
Proof.
  eexists. split; [vm_compute; reflexivity|].
  eapply (one_shot_head_stays_inside 48000 false 0
            (Examples.locals_at_48k Examples.fast_voice) None 5 0
            (Examples.kernel_of Examples.fast_voice)).
  - reflexivity.
  - intros _. split; vm_compute; [discriminate | reflexivity].
  - vm_compute. reflexivity.
Defined.

Section Loops.

Import Processor.

Variable sampleRate : Q.
Variables Math_cos Math_sin : Q -> Q.
Variable Math_PI : Q.

Local Open Scope Q_scope.

Local Abbreviation frame := (Processor.frame sampleRate).
Local Abbreviation frames := (Processor.frames sampleRate).
Local Abbreviation locals_of :=
  (Processor.locals_of sampleRate Math_cos Math_sin Math_PI).




End Loops.


Section Gains.

Import Processor.

Variable sampleRate : Q.

Local Open Scope Q_scope.

Local Abbreviation frame := (Processor.frame sampleRate).
Local Abbreviation frames := (Processor.frames sampleRate).

(** X16: the crossfade gain never amplifies and never inverts: it lies in
    [0, 1] for every voice, loop and phase; with the fade in effect it is 0
    at the loop start itself and [d / fadeSamples] at a distance [d] less
    than [fadeSamples] after the loop start. *)
Theorem fade_gain_range (c : locals) (v : voice) (p : Q) :
  0 <= fade c v p <= 1 /\
  (loop v = true -> 0 < fadeSamples c -> 0 < loopLen c ->
   fade c v (loopStartSamp c) == 0 /\
   (0 <= p - loopStartSamp c < fadeSamples c ->
    fade c v p = (p - loopStartSamp c) / fadeSamples c)).
Proof.
  split.
  - unfold fade. destruct (loop v); cbn [andb]; [|lra].
    js_case (Js.gt (fadeSamples c) 0); cbn [andb]; [|lra].
    destruct (Js.gt (loopLen c) 0); cbn [andb]; [|lra].
    js_case (Js.ge (p - loopStartSamp c) 0); cbn [andb].
    + js_case (Js.lt (p - loopStartSamp c) (fadeSamples c)).
      * split; [apply Qle_shift_div_l | apply Qle_shift_div_r]; lra.
      * js_case (Js.ge (loopEndSamp c - p) 0); cbn [andb]; [|lra].
        js_case (Js.lt (loopEndSamp c - p) (fadeSamples c)); [|lra].
        split; [apply Qle_shift_div_l | apply Qle_shift_div_r]; lra.
    + js_case (Js.ge (loopEndSamp c - p) 0); cbn [andb]; [|lra].
      js_case (Js.lt (loopEndSamp c - p) (fadeSamples c)); [|lra].
      split; [apply Qle_shift_div_l | apply Qle_shift_div_r]; lra.
  - intros Hloop Hfade Hlen. unfold fade. rewrite Hloop.
    assert (H1 : Js.gt (fadeSamples c) 0 = true) by now apply js_gt_spec.
    assert (H2 : Js.gt (loopLen c) 0 = true) by now apply js_gt_spec.
    rewrite H1, H2. cbn [andb]. cbv iota. split.
    + assert (H3 : Js.ge (loopStartSamp c - loopStartSamp c) 0 = true)
        by (apply js_ge_spec; lra).
      assert (H4 : Js.lt (loopStartSamp c - loopStartSamp c) (fadeSamples c)
                   = true) by (apply js_lt_spec; lra).
      rewrite H3, H4. cbn [andb]. cbv iota. field. lra.
    + intros [Hge Hlt].
      assert (H3 : Js.ge (p - loopStartSamp c) 0 = true)
        by now apply js_ge_spec.
      assert (H4 : Js.lt (p - loopStartSamp c) (fadeSamples c) = true)
        by now apply js_lt_spec.
      rewrite H3, H4. reflexivity.
Qed.

(** *** The level slew *)









End Gains.

Lemma fade_gain_range_witness :
  let c := Examples.locals_at_48k Examples.looping_voice in
  (Processor.fade c Examples.looping_voice (Processor.loopStartSamp c) == 0)%Q /\
  (0 <= Processor.fade c Examples.looping_voice 2 <= 1)%Q.
Proof.
  intros c.
  destruct (fade_gain_range c Examples.looping_voice 2) as [Hrange Hstart].
  split; [|exact Hrange].
  apply Hstart; vm_compute; reflexivity.
Defined.


Section Reports.

Import Processor.

Variable sampleRate : Q.

Local Open Scope Q_scope.

Local Abbreviation frame := (Processor.frame sampleRate).
Local Abbreviation frames := (Processor.frames sampleRate).




End Reports.


(** ** Commands *)

Section Commands.

Import Processor.

Variable sampleRate : Q.

Local Open Scope Q_scope.

Local Abbreviation _handleMessage := (Processor._handleMessage sampleRate).

Lemma on_voice_spec (i : Z) (f : voice -> voice) (p : processor) :
  length (voices p) = 6%nat ->
  ((0 <= i < 6)%Z ->
   exists v, at_index (voices p) i = Some v /\
             on_voice i f p
               = Some (set_voices (<[Z.to_nat i := f v]> (voices p)) p)) /\
  (~ (0 <= i < 6)%Z -> on_voice i f p = None).
Proof.
  intros Hlen. unfold on_voice. split; intros Hi.
  - destruct (at_index_in_range (voices p) i) as [v Hv]; [lia|].
    exists v. rewrite Hv. split; reflexivity.
  - rewrite at_index_out_of_range by lia. reflexivity.
Qed.

Lemma on_buffer_spec (ch : Z) (f : gmap Z Q -> gmap Z Q) (p : processor) :
  length (buffers p) = 2%nat ->
  ((0 <= ch < 2)%Z ->
   exists b, at_index (buffers p) ch = Some b /\
             on_buffer ch f p
               = Some (set_buffers (<[Z.to_nat ch := f b]> (buffers p)) p)) /\
  (~ (0 <= ch < 2)%Z -> on_buffer ch f p = None).
Proof.
  intros Hlen. unfold on_buffer. split; intros Hi.
  - destruct (at_index_in_range (buffers p) ch) as [b Hb]; [lia|].
    exists b. rewrite Hb. split; reflexivity.
  - rewrite at_index_out_of_range by lia. reflexivity.
Qed.





(** X20: what the engine does with the command a voice-targeted call of
    the facade composes.  For a voice in 1..6 the command is handled and
    touches only that voice: the other voices, the buffers, the polling
    switch and the port are as before.  For any other voice index the
    handler throws (reading a field of [undefined]). *)
Theorem voice_call_reaches_one_voice (c : Softcut.call) (p : processor) :
  well_shaped p ->
  ((1 <= Softcut.call_voice c <= 6)%Z ->
   exists p',
     _handleMessage (Softcut.call_msg c) p = Some p' /\
     well_shaped p' /\ buffers p' = buffers p /\
     phasePolling p' = phasePolling p /\ posted p' = posted p /\
     forall j : nat,
       j <> Z.to_nat (Softcut.call_voice c - 1) ->
       voices p' !! j = voices p !! j) /\
  (~ (1 <= Softcut.call_voice c <= 6)%Z ->
   _handleMessage (Softcut.call_msg c) p = None).
Proof.
  intros [Hb Hv].
  assert (Hgen : forall (i : Z) (f : voice -> voice),
            ((1 <= i <= 6)%Z ->
             exists p', on_voice (i - 1) f p = Some p' /\
               well_shaped p' /\ buffers p' = buffers p /\
               phasePolling p' = phasePolling p /\ posted p' = posted p /\
               forall j : nat, j <> Z.to_nat (i - 1) ->
                               voices p' !! j = voices p !! j) /\
            (~ (1 <= i <= 6)%Z -> on_voice (i - 1) f p = None)).
  { intros i f. destruct (on_voice_spec (i - 1) f p Hv) as [Hin Hout].
    split; intros Hi.
    - destruct Hin as (v & _ & ->); [lia|]. eexists. split; [reflexivity|].
      unfold well_shaped. cbn. rewrite length_insert.
      repeat split; try assumption.
      intros j Hj. apply list_lookup_insert_ne. congruence.
    - apply Hout. lia. }
  destruct c; cbn [Softcut.call_voice Softcut.call_msg Processor._handleMessage];
    apply Hgen.
Qed.

(** X21: [reset] is idempotent, and it gives the voices and buffers of a
    newly constructed processor; the polling switch is not part of what it
    resets. *)
Theorem reset_is_idempotent (p : processor) :
  well_shaped p ->
  exists p',
    _handleMessage Reset p = Some p' /\
    _handleMessage Reset p' = Some p' /\
    voices p' = voices construct /\ buffers p' = buffers construct /\
    phasePolling p' = phasePolling p /\ posted p' = posted p.
Proof.
  intros [Hb Hv]. destruct p as [bufs vs polling out]. simpl in Hb, Hv.
  destruct bufs as [|b0 [|b1 [|]]]; try discriminate.
  destruct vs as [|v0 [|v1 [|v2 [|v3 [|v4 [|v5 [|]]]]]]]; try discriminate.
  eexists. split; [reflexivity|]. repeat split.
Qed.

End Commands.


Lemma voice_call_reaches_one_voice_witness :
  Processor._handleMessage 48000
    (Softcut.call_msg (Softcut.CallRate 0 2)) Processor.construct = None /\
  exists p',
    Processor._handleMessage 48000
      (Softcut.call_msg (Softcut.CallRate 6 2)) Processor.construct
      = Some p' /\
    Processor.voices p' !! 0%nat = Processor.voices Processor.construct !! 0%nat.
Proof.
  destruct (voice_call_reaches_one_voice 48000 (Softcut.CallRate 0 2)
              Processor.construct) as [_ Hbad]; [split; reflexivity|].
  destruct (voice_call_reaches_one_voice 48000 (Softcut.CallRate 6 2)
              Processor.construct) as [Hgood _]; [split; reflexivity|].
  split; [apply Hbad; simpl; lia|].
  destruct Hgood as (p' & Hrun & _ & _ & _ & _ & Hrest); [simpl; lia|].
  exists p'. split; [exact Hrun|]. apply Hrest. simpl. lia.
Defined.

Lemma reset_is_idempotent_witness :
  exists p',
    Processor._handleMessage 48000 Processor.Reset
      (Processor.set_phasePolling true Processor.construct) = Some p' /\
    Processor._handleMessage 48000 Processor.Reset p' = Some p' /\
    Processor.phasePolling p' = true.
Proof.
  destruct (reset_is_idempotent 48000
              (Processor.set_phasePolling true Processor.construct))
    as (p' & H1 & H2 & _ & _ & Hpoll & _); [split; reflexivity|].
  exists p'. split; [exact H1|]. split; [exact H2 | exact Hpoll].
Defined.

(** ** Loading and reading back *)

Lemma pcm_get_set (b : Pcm.t) (i j : Z) (x : Q) :
  Pcm.get (Pcm.set b i x) j
  = if Pcm.in_range i && (i =? j)%Z then x else Pcm.get b j.
Proof.
  unfold Pcm.set, Pcm.get. destruct (Pcm.in_range i); simpl; [|reflexivity].
  destruct (Z.eqb_spec i j) as [->|Hne].
  - rewrite lookup_insert_eq. reflexivity.
  - rewrite lookup_insert_ne by assumption. reflexivity.
Qed.

Lemma copy_from_get (data : list Q) :
  forall (dst : Z) (b : Pcm.t) (j : Z),
  Pcm.in_range j = true ->
  Pcm.get (Pcm.copy_from data dst b) j
  = if (dst <=? j)%Z && (j <? dst + Z.of_nat (length data))%Z
    then default 0%Q (data !! Z.to_nat (j - dst))
    else Pcm.get b j.
Proof.
  induction data as [|x data IH]; intros dst b j Hj.
  - cbn [Pcm.copy_from length]. 
    destruct (Z.leb_spec dst j), (Z.ltb_spec j (dst + Z.of_nat 0)); simpl;
      try reflexivity; lia.
  - cbn [Pcm.copy_from]. rewrite IH by assumption. rewrite pcm_get_set.
    rewrite length_cons.
    destruct (Z.leb_spec (dst + 1) j), (Z.leb_spec dst j),
      (Z.ltb_spec j (dst + 1 + Z.of_nat (length data))),
      (Z.ltb_spec j (dst + Z.of_nat (S (length data)))),
      (Z.eqb_spec dst j); cbn [andb]; try lia.
    all: rewrite ?andb_false_r, ?andb_true_r; try reflexivity.
    + replace (Z.to_nat (j - dst)) with (S (Z.to_nat (j - (dst + 1)))) by lia.
      reflexivity.
    + subst j. rewrite Hj. rewrite Z.sub_diag. reflexivity.
Qed.

Section Loading.

Import Processor.

Variable sampleRate : Q.

Local Abbreviation _handleMessage := (Processor._handleMessage sampleRate).

Lemma load_get (start_dst : Q) (data : list Q) (b : Pcm.t) (j : Z) :
  Pcm.in_range j = true ->
  Pcm.get (load sampleRate start_dst data b) j
  = let dst := Js.floor (start_dst * sampleRate) in
    if (dst <=? j)%Z && (j <? dst + Z.of_nat (length data))%Z
    then default 0%Q (data !! Z.to_nat (j - dst))
    else Pcm.get b j.
Proof.
  intros Hj. unfold load. cbv zeta.
  set (dst := Js.floor (start_dst * sampleRate)).
  rewrite copy_from_get by assumption.
  assert (Hr : (0 <= j < Pcm.BUF_FRAMES)%Z).
  { unfold Pcm.in_range in Hj. apply andb_true_iff in Hj as [H1 H2].
    apply Z.leb_le in H1. apply Z.ltb_lt in H2. lia. }
  rewrite length_take.
  destruct (Z.leb_spec dst j); cbn [andb]; [|reflexivity].
  destruct (Z.ltb_spec j (dst + Z.of_nat (length data))),
    (Z.ltb_spec j (dst + Z.of_nat
       (Z.to_nat (Z.min (Z.of_nat (length data)) (Pcm.BUF_FRAMES - dst))
        `min` length data))); try lia; try reflexivity.
  rewrite lookup_take_lt by lia. reflexivity.
Qed.

(** X22: what [buffer_load] leaves in the buffers.  For a buffer index 0
    or 1 the command is handled; sample [i] of the data is at frame
    [floor(start_dst * sampleRate) + i] of that buffer whenever that frame
    exists (data that would pass either end of the buffer is dropped), and
    every other frame of that buffer, the whole other buffer, the voices,
    the polling switch and the port are as before. *)
Theorem buffer_load_stores_data (ch : Z) (start_dst : Q) (data : list Q)
    (p : processor) :
  well_shaped p -> (0 <= ch < 2)%Z ->
  exists p',
    _handleMessage (BufferLoad ch start_dst data) p = Some p' /\
    well_shaped p' /\ voices p' = voices p /\
    phasePolling p' = phasePolling p /\ posted p' = posted p /\
    forall (c : Z) (b : Pcm.t),
      at_index (buffers p) c = Some b ->
      exists b',
        at_index (buffers p') c = Some b' /\
        forall j : Z,
          Pcm.in_range j = true ->
          Pcm.get b' j
          = let dst := Js.floor (start_dst * sampleRate) in
            if (c =? ch)%Z && (dst <=? j)%Z
               && (j <? dst + Z.of_nat (length data))%Z
            then default 0%Q (data !! Z.to_nat (j - dst))
            else Pcm.get b j.
Proof.
  intros [Hb Hv] Hch. cbn [Processor._handleMessage].
  destruct (on_buffer_spec ch (load sampleRate start_dst data) p Hb)
    as [Hin _].
  destruct (Hin Hch) as (b0 & Hb0 & ->). eexists. split; [reflexivity|].
  split; [split; cbn; [rewrite length_insert|]; assumption|].
  repeat split. cbn [buffers set_buffers].
  intros c b Hc. pose proof (at_index_lookup _ _ _ Hc) as Hc'.
  pose proof (at_index_lookup _ _ _ Hb0) as Hb0'.
  assert (Hc0 : (0 <= c)%Z).
  { unfold at_index in Hc. destruct (Z.ltb_spec c 0); [discriminate | lia]. }
  unfold at_index. destruct (Z.ltb_spec c 0); [lia|].
  destruct (Z.eqb_spec c ch) as [->|Hne].
  - rewrite list_lookup_insert_eq by (apply lookup_lt_is_Some_1; eauto).
    eexists. split; [reflexivity|]. intros j Hj.
    rewrite load_get by assumption. cbn [andb].
    replace b with b0 by congruence. reflexivity.
  - rewrite list_lookup_insert_ne by lia.
    exists b. split; [assumption|]. intros j Hj. reflexivity.
Qed.

Lemma slice_inside (b : Pcm.t) (k n : Z) :
  (0 <= k)%Z -> (0 <= n)%Z -> (k + n <= Pcm.BUF_FRAMES)%Z ->
  Pcm.slice b k (k + n)
  = (fun i : nat => Pcm.get b (k + Z.of_nat i)) <$> seq 0 (Z.to_nat n).
Proof.
  intros Hk Hn Hkn. unfold Pcm.slice, Pcm.clamp_index. cbv zeta.
  destruct (Z.ltb_spec k 0); [lia|].
  destruct (Z.ltb_spec (k + n) 0); [lia|].
  rewrite !Z.min_l by lia. replace (k + n - k)%Z with n by lia. reflexivity.
Qed.

(** X23: a [buffer_read] of the region a [buffer_load] has just filled
    posts the loaded data.  The load has to fit: it starts at a frame that
    is not negative and ends inside the buffer; the read starts at the same
    time and has the data's length. *)
Theorem buffer_load_then_read (ch : Z) (start dur : Q) (data : list Q)
    (p : processor) :
  well_shaped p -> (0 <= ch < 2)%Z ->
  (0 <= Js.floor (start * sampleRate))%Z ->
  (Js.floor (start * sampleRate) + Z.of_nat (length data)
   <= Pcm.BUF_FRAMES)%Z ->
  Js.floor (dur * sampleRate) = Z.of_nat (length data) ->
  exists p1 p2,
    _handleMessage (BufferLoad ch start data) p = Some p1 /\
    _handleMessage (BufferRead ch start dur) p1 = Some p2 /\
    posted p2 = posted p ++ [BufferData ch data] /\
    buffers p2 = buffers p1 /\ voices p2 = voices p.
Proof.
  intros [Hb Hv] Hch Hdst Hend Hlen.
  cbn [Processor._handleMessage]. cbv zeta.
  destruct (on_buffer_spec ch (load sampleRate start data) p Hb) as [Hin _].
  destruct (Hin Hch) as (b0 & Hb0 & ->). eexists. eexists.
  split; [reflexivity|]. cbn [buffers set_buffers].
  assert (Hget : at_index (<[Z.to_nat ch := load sampleRate start data b0]>
                             (buffers p)) ch
                 = Some (load sampleRate start data b0)).
  { unfold at_index. destruct (Z.ltb_spec ch 0); [lia|].
    apply list_lookup_insert_eq. lia. }
  rewrite Hget. cbn [mbind option_bind].
  split; [reflexivity|]. cbn [posted post set_buffers buffers voices].
  split; [|split; reflexivity]. f_equal. f_equal. f_equal.
  rewrite Hlen. rewrite slice_inside by lia. rewrite Nat2Z.id.
  apply list_eq. intros i. rewrite list_lookup_fmap.
  destruct (decide (i < length data)%nat) as [Hi|Hi].
  - rewrite lookup_seq_lt by assumption. cbn [fmap option_fmap option_map].
    rewrite load_get.
    + cbv zeta.
      destruct (Z.leb_spec (Js.floor (start * sampleRate))
                  (Js.floor (start * sampleRate) + Z.of_nat (0 + i)));
        [|lia].
      destruct (Z.ltb_spec (Js.floor (start * sampleRate) + Z.of_nat (0 + i))
                  (Js.floor (start * sampleRate) + Z.of_nat (length data)));
        [|lia].
      cbn [andb].
      replace (Z.to_nat (Js.floor (start * sampleRate) + Z.of_nat (0 + i)
                         - Js.floor (start * sampleRate))) with i by lia.
      destruct (lookup_lt_is_Some_2 data i Hi) as [x Hx]. rewrite Hx.
      reflexivity.
    + unfold Pcm.in_range. apply andb_true_iff. split.
      * apply Z.leb_le. lia.
      * apply Z.ltb_lt. lia.
  - rewrite lookup_seq_ge by lia. rewrite lookup_ge_None_2 by lia.
    reflexivity.
Qed.

End Loading.

Lemma buffer_load_stores_data_witness :
  exists p',
    Processor._handleMessage 48000
      (Processor.BufferLoad 1 (1 # 48000) [1 # 2; 1 # 4]) Processor.construct
    = Some p' /\
    Processor.voices p' = Processor.voices Processor.construct.
Proof.
  destruct (buffer_load_stores_data 48000 1 (1 # 48000) [1 # 2; 1 # 4]
              Processor.construct)
    as (p' & H & _ & Hv & _); [split; reflexivity | lia |].
  exists p'. split; assumption.
Defined.

Lemma buffer_load_then_read_witness :
  exists p1 p2,
    Processor._handleMessage 48000
      (Processor.BufferLoad 1 (1 # 48000) [1 # 2; 1 # 4]) Processor.construct
    = Some p1 /\
    Processor._handleMessage 48000
      (Processor.BufferRead 1 (1 # 48000) (2 # 48000)) p1 = Some p2 /\
    Processor.posted p2 = [Processor.BufferData 1 [1 # 2; 1 # 4]].
Proof.
  destruct (buffer_load_then_read 48000 1 (1 # 48000) (2 # 48000)
              [1 # 2; 1 # 4] Processor.construct)
    as (p1 & p2 & H1 & H2 & H3 & _).
  - split; reflexivity.
  - lia.
  - vm_compute. discriminate.
  - vm_compute. discriminate.
  - reflexivity.
  - exists p1, p2. split; [exact H1|]. split; [exact H2 | exact H3].
Defined.
